(** * The event layer of the renderer: batching coordinator and synthetic events

    Two source files are modelled here.

    - the batching coordinator (the module that exports [batchedUpdates],
      [interactiveUpdates], [flushInteractiveUpdates] and
      [setBatchingImplementation]): the module-private flag [isBatching], the
      three injected strategy functions and [batchedUpdates] with its
      [try]/[finally].
    - [packages/events/SyntheticEvent.js]: the descriptor table
      ([EventInterface]), the constructor, the dispatch-time mutators, the
      destructor, [extend] and the per-class event pool.

    JavaScript values are a small tagged union; objects live in a heap and are
    referred to by location, so that identity and aliasing are those of the
    source.  Code that can throw runs in a state-and-exception monad in which a
    thrown exception keeps the state reached so far. *)

From stdpp Require Import base option list gmap strings.
From Stdlib Require Import ZArith Lia.


(** ** JavaScript values *)

(** The function values the two modules create or call. *)
Inductive fn : Type :=
  | functionThatReturnsTrue
  | functionThatReturnsFalse
  | HostFunction (id : nat).

Abbreviation loc := nat.

Inductive value : Type :=
  | VUndefined
  | VNull
  | VBool (b : bool)
  | VNum (z : Z)
  | VStr (s : string)
  | VObj (l : loc)
  | VFun (f : fn).

#[global] Instance fn_eq_dec : EqDecision fn.
Proof. solve_decision. Defined.

#[global] Instance value_eq_dec : EqDecision value.
Proof. solve_decision. Defined.

(** [ToBoolean]: what [if (v)] and [!v] test. *)
Definition truthy (v : value) : bool :=
  match v with
  | VUndefined | VNull => false
  | VBool b => b
  | VNum z => negb (Z.eqb z 0%Z)
  | VStr s => negb (String.eqb s "")
  | VObj _ | VFun _ => true
  end.

(** [typeof v] for the values of the language.  No value answers
    ["unknown"], which only host objects of old Internet Explorer did. *)
Definition typeof (v : value) : string :=
  match v with
  | VUndefined => "undefined"
  | VNull => "object"
  | VBool _ => "boolean"
  | VNum _ => "number"
  | VStr _ => "string"
  | VObj _ => "object"
  | VFun _ => "function"
  end.

(** [v != null]: neither [null] nor [undefined]. *)
Definition not_nullish (v : value) : bool :=
  match v with
  | VUndefined | VNull => false
  | _ => true
  end.

(** [v === false]. *)
Definition strict_eq_false (v : value) : bool :=
  match v with
  | VBool false => true
  | _ => false
  end.

(** * Part I: the batching coordinator *)

Module Batching.

(** What a call leaves behind: a returned value or a thrown exception. *)
Inductive outcome : Type :=
  | Returned (v : value)
  | Thrown (e : value).

(** Observable actions.  The three collaborator calls record the value of
    [isBatching] at the moment of the call. *)
Inductive event : Type :=
  | EvWork (tag : value)
  | EvNeedsStateRestore (batching : bool) (answer : bool)
  | EvFlushInteractive (batching : bool)
  | EvRestoreState (batching : bool).

(** The events that make up the restoration check proper: the query to the
    controlled-component collaborator and the restoration itself. *)
Definition is_check (e : event) : bool :=
  match e with
  | EvNeedsStateRestore _ _ | EvRestoreState _ => true
  | _ => false
  end.


(** An event of the restoration check that was recorded outside any batch
    (every other event passes). *)
Definition check_when_idle (e : event) : bool :=
  match e with
  | EvNeedsStateRestore batching _ | EvRestoreState batching => negb batching
  | _ => true
  end.



Section Coordinator.

(** State of the controlled-component collaborator
    ([./ReactControlledComponent], imported but not part of the module):
    [needsStateRestore] queries it, [restoreStateIfNeeded] updates it. *)
Context {X : Type}.
Variable needsStateRestore : X -> bool.
Variable restoreStateIfNeeded : X -> X.

(** An injected strategy is a piece of host code that is handed [fn] and its
    arguments.  It may do observable work, talk to the collaborator, call
    [fn] as often as it likes with arguments of its choice, and return or
    throw. *)
Inductive strategy : Type :=
  | SReturn (v : value)
  | SThrow (e : value)
  | SWork (tag : value) (k : strategy)
  | STouch (f : X -> X) (k : strategy)
  | SCallFn (a b : value) (onReturn : value -> strategy)
            (onThrow : value -> strategy).

(** Module state: [isBatching], the three [_...Impl] variables, and what the
    outside can observe (collaborator state, log of actions). *)
Record state : Type := mkState {
  isBatching : bool;
  _batchedUpdatesImpl : value -> strategy;
  _interactiveUpdatesImpl : value -> value -> strategy;
  _flushInteractiveUpdatesImpl : X -> X;
  controlled : X;
  log : list event
}.

Definition M (A : Type) : Type := state -> A * state.

Definition set_isBatching (b : bool) (s : state) : state :=
  mkState b (_batchedUpdatesImpl s) (_interactiveUpdatesImpl s)
          (_flushInteractiveUpdatesImpl s) (controlled s) (log s).

Definition emit (e : event) (s : state) : state :=
  mkState (isBatching s) (_batchedUpdatesImpl s) (_interactiveUpdatesImpl s)
          (_flushInteractiveUpdatesImpl s) (controlled s) (log s ++ [e]).

Definition touch (f : X -> X) (s : state) : state :=
  mkState (isBatching s) (_batchedUpdatesImpl s) (_interactiveUpdatesImpl s)
          (_flushInteractiveUpdatesImpl s) (f (controlled s)) (log s).



(** Running a strategy against the function it was handed. *)
Fixpoint run_strategy (fn : value -> value -> M outcome) (st : strategy)
  : M outcome :=
  fun s =>
    match st with
    | SReturn v => (Returned v, s)
    | SThrow e => (Thrown e, s)
    | SWork tag k => run_strategy fn k (emit (EvWork tag) s)
    | STouch f k => run_strategy fn k (touch f s)
    | SCallFn a b onReturn onThrow =>
        match fn a b s with
        | (Returned v, s') => run_strategy fn (onReturn v) s'
        | (Thrown e, s') => run_strategy fn (onThrow e) s'
        end
    end.

(** The collaborator calls. *)
Definition call_needsStateRestore : M bool :=
  fun s =>
    let answer := needsStateRestore (controlled s) in
    (answer, emit (EvNeedsStateRestore (isBatching s) answer) s).

Definition call_flushInteractiveUpdatesImpl (s : state) : state :=
  touch (_flushInteractiveUpdatesImpl s)
        (emit (EvFlushInteractive (isBatching s)) s).

Definition call_restoreStateIfNeeded (s : state) : state :=
  touch restoreStateIfNeeded (emit (EvRestoreState (isBatching s)) s).

(** The body of the [finally] block of [batchedUpdates] (lines 53-65). *)
Definition finally_block (s : state) : state :=
  let s := set_isBatching false s in
  let '(controlledComponentsHavePendingUpdates, s) :=
    call_needsStateRestore s in
  if controlledComponentsHavePendingUpdates
  then call_restoreStateIfNeeded (call_flushInteractiveUpdatesImpl s)
  else s.

(** [batchedUpdates(fn, bookkeeping)] (lines 36-67). *)
Definition batchedUpdates (fn : value -> M outcome) (bookkeeping : value)
  : M outcome :=
  fun s =>
    if isBatching s then fn bookkeeping s
    else
      let s := set_isBatching true s in
      let '(o, s) :=
        run_strategy (fun a _ => fn a) (_batchedUpdatesImpl s bookkeeping) s in
      (o, finally_block s).

(** [interactiveUpdates(fn, a, b)] (lines 69-71). *)
Definition interactiveUpdates (fn : value -> value -> M outcome)
  (a b : value) : M outcome :=
  fun s => run_strategy fn (_interactiveUpdatesImpl s a b) s.

(** [flushInteractiveUpdates()] (lines 73-75). *)
Definition flushInteractiveUpdates (s : state) : state :=
  call_flushInteractiveUpdatesImpl s.

(** [setBatchingImplementation] (lines 77-85). *)
Definition setBatchingImplementation
  (batchedUpdatesImpl : value -> strategy)
  (interactiveUpdatesImpl : value -> value -> strategy)
  (flushInteractiveUpdatesImpl : X -> X) (s : state) : state :=
  mkState (isBatching s) batchedUpdatesImpl interactiveUpdatesImpl
          flushInteractiveUpdatesImpl (controlled s) (log s).

(** The code that calls into the coordinator: listeners, event plugins,
    third-party libraries.  It cannot name [isBatching]; all it can do with
    the module is call its four exports, to any depth of nesting, and around
    each call it may catch what is thrown. *)
Inductive code : Type :=
  | Return (v : value)
  | Throw (e : value)
  | Work (tag : value) (k : code)
  | Touch (f : X -> X) (k : code)
  | BatchedUpdates (fn : value -> code) (bookkeeping : value)
                   (onReturn : value -> code) (onThrow : value -> code)
  | InteractiveUpdates (fn : value -> value -> code) (a b : value)
                       (onReturn : value -> code) (onThrow : value -> code)
  | FlushInteractiveUpdates (k : code)
  | SetBatchingImplementation
      (batchedUpdatesImpl : value -> strategy)
      (interactiveUpdatesImpl : value -> value -> strategy)
      (flushInteractiveUpdatesImpl : X -> X) (k : code).

Fixpoint run (c : code) : M outcome :=
  fun s =>
    match c with
    | Return v => (Returned v, s)
    | Throw e => (Thrown e, s)
    | Work tag k => run k (emit (EvWork tag) s)
    | Touch f k => run k (touch f s)
    | BatchedUpdates fn bookkeeping onReturn onThrow =>
        match batchedUpdates (fun v => run (fn v)) bookkeeping s with
        | (Returned v, s') => run (onReturn v) s'
        | (Thrown e, s') => run (onThrow e) s'
        end
    | InteractiveUpdates fn a b onReturn onThrow =>
        match interactiveUpdates (fun x y => run (fn x y)) a b s with
        | (Returned v, s') => run (onReturn v) s'
        | (Thrown e, s') => run (onThrow e) s'
        end
    | FlushInteractiveUpdates k => run k (flushInteractiveUpdates s)
    | SetBatchingImplementation bi ii fi k =>
        run k (setBatchingImplementation bi ii fi s)
    end.

(** [s'] is reached from [s] without touching the flag and without any
    event of the restoration check. *)
Definition quiet_step (s s' : state) : Prop :=
  isBatching s' = isBatching s /\
  exists body, log s' = log s ++ body /\
               Forall (fun e => is_check e = false) body.

(** A computation is quiet when, started inside a batch, it stays inside
    the batch and performs no restoration check. *)
Definition quiet (m : M outcome) : Prop :=
  forall s, isBatching s = true -> quiet_step s (m s).2.

(** The events of one restoration check, made from collaborator state [x]. *)
Definition restoration_check (x : X) : list event :=
  EvNeedsStateRestore false (needsStateRestore x)
  :: (if needsStateRestore x
      then [EvFlushInteractive false; EvRestoreState false]
      else []).


End Coordinator.






End Batching.

(** * Part II: synthetic events *)

Module Events.

Local Open Scope string_scope.
Local Open Scope list_scope.

(** ** Exceptions and the state-and-exception monad *)

Inductive error : Type :=
  | TypeError (msg : string)
  | InvariantViolation (msg : string)
  | Raised (e : value).

Inductive result (A : Type) : Type :=
  | Ok (a : A)
  | Throw (e : error).
Arguments Ok {A} a.
Arguments Throw {A} e.

Definition is_Ok {A} (r : result A) : bool :=
  match r with Ok _ => true | Throw _ => false end.

(** ** Objects, classes, the world *)

Abbreviation classId := nat.

(** An object: the class whose [prototype] it was created from ([None] for
    plain objects such as native events) and its own properties.  The built-in
    prototypes ([Object.prototype] and the like) are not modelled. *)
Record obj : Type := mkObj {
  proto : option classId;
  own : gmap string value
}.

(** A normalization rule that is a function: it is handed the native event,
    and may read the native event's own properties and the clock
    ([Date.now()]). *)
Abbreviation normalizer :=
  (value -> gmap string value -> Z -> result value).

(** An entry of a descriptor table: [None] is the entry [null] (any falsy
    entry behaves the same), [Some f] a function. *)
Abbreviation rule := (option normalizer).

(** A descriptor table: the own enumerable properties of the [Interface]
    object, in property order.  Inherited properties, which the constructor
    skips (line 89) and which exist only if [Object.prototype] has been
    extended, are not represented. *)
Abbreviation table := (list (string * rule)).

Record class : Type := mkClass {
  super : option classId;
  Interface : table;
  (** The array [eventPool], most recently pushed instance first: [pop]
      takes the head. *)
  eventPool : list loc
}.

(** A call of a method of a native event. *)
Inductive native_call : Type :=
  | CallPreventDefault (receiver : value) (f : fn)
  | CallStopPropagation (receiver : value) (f : fn).

Record world : Type := mkWorld {
  heap : gmap loc obj;
  classes : list class;
  now : Z;
  native_calls : list native_call
}.

Definition M (A : Type) : Type := world -> result A * world.

Definition ret {A} (a : A) : M A := fun w => (Ok a, w).
Definition throw {A} (e : error) : M A := fun w => (Throw e, w).
Definition bind {A B} (m : M A) (k : A -> M B) : M B :=
  fun w =>
    match m w with
    | (Ok a, w') => k a w'
    | (Throw e, w') => (Throw e, w')
    end.

Notation "'let*' x ':=' m 'in' k" := (bind m (fun x => k))
  (at level 10, x name, m at level 100, k at level 200).
Notation "m ';;' k" := (bind m (fun _ => k))
  (at level 100, k at level 200, right associativity).

Definition with_heap (h : gmap loc obj) (w : world) : world :=
  mkWorld h (classes w) (now w) (native_calls w).

Definition with_classes (cs : list class) (w : world) : world :=
  mkWorld (heap w) cs (now w) (native_calls w).

(** ** Property access *)

Definition own_props (h : gmap loc obj) (l : loc) : gmap string value :=
  match h !! l with
  | Some o => own o
  | None => ∅
  end.

Definition proto_of (h : gmap loc obj) (l : loc) : option classId :=
  h !! l ≫= proto.

(** [o[k]] for an object [o]: [undefined] when the property is absent. *)
Definition read_own (h : gmap loc obj) (l : loc) (k : string) : value :=
  default VUndefined (own_props h l !! k).

(** [o[k] = x]. *)
Definition write_own (h : gmap loc obj) (l : loc) (k : string) (x : value)
  : gmap loc obj :=
  <[l := mkObj (proto_of h l) (<[k := x]> (own_props h l))]> h.

(** [v[k]] for any value: a [TypeError] on [null] and [undefined], and
    [undefined] on the other primitives. *)
Definition get_prop (v : value) (k : string) : M value :=
  fun w =>
    match v with
    | VUndefined | VNull =>
        (Throw (TypeError "Cannot read property of null or undefined"), w)
    | VObj l => (Ok (read_own (heap w) l k), w)
    | _ => (Ok VUndefined, w)
    end.

(** [v[k] = x] in strict mode (the file is a module): a [TypeError] unless [v]
    is an object. *)
Definition set_prop (v : value) (k : string) (x : value) : M unit :=
  fun w =>
    match v with
    | VObj l => (Ok tt, with_heap (write_own (heap w) l k x) w)
    | _ => (Throw (TypeError "Cannot set property of a non-object"), w)
    end.

(** [this[k] = x]. *)
Definition set_this (this : loc) (k : string) (x : value) : M unit :=
  fun w => (Ok tt, with_heap (write_own (heap w) this k x) w).

(** [this.constructor.Interface]: the table of the class the instance was
    created from. *)
Definition Interface_of (w : world) (this : loc) : table :=
  match proto_of (heap w) this with
  | Some c =>
      match classes w !! c with
      | Some cls => Interface cls
      | None => []
      end
  | None => []
  end.

(** ** The base descriptor table (lines 18-33) *)

Definition currentTarget_rule : normalizer := fun _ _ _ => Ok VNull.

Definition timeStamp_rule : normalizer :=
  fun event fields now =>
    match event with
    | VUndefined | VNull =>
        Throw (TypeError "Cannot read property of null or undefined")
    | _ =>
        let timeStamp := default VUndefined (fields !! "timeStamp") in
        if truthy timeStamp then Ok timeStamp else Ok (VNum now)
    end.

Definition EventInterface : table :=
  [ ("type", None);
    ("target", None);
    ("currentTarget", Some currentTarget_rule);
    ("eventPhase", None);
    ("bubbles", None);
    ("cancelable", None);
    ("timeStamp", Some timeStamp_rule);
    ("defaultPrevented", None);
    ("isTrusted", None) ].

(** ** The constructor (lines 71-125) *)

Record args : Type := mkArgs {
  dispatchConfig : value;
  targetInst : value;
  nativeEvent : value;
  nativeEventTarget : value
}.

(** [normalize(nativeEvent)]. *)
Definition call_normalizer (normalize : normalizer) (nativeEvent : value)
  : M value :=
  fun w =>
    let fields := match nativeEvent with
                  | VObj l => own_props (heap w) l
                  | _ => ∅
                  end in
    (normalize nativeEvent fields (now w), w).

(** The right-hand side of the assignment for one entry of the table
    (lines 93-104). *)
Definition field_value (propName : string) (normalize : rule)
  (nativeEvent nativeEventTarget : value) : M value :=
  match normalize with
  | Some f => call_normalizer f nativeEvent
  | None =>
      if decide (propName = "target") then ret nativeEventTarget
      else get_prop nativeEvent propName
  end.

(** The [for (const propName in Interface)] loop (lines 87-105). *)
Fixpoint populate (this : loc) (nativeEvent nativeEventTarget : value)
  (entries : table) : M unit :=
  match entries with
  | [] => ret tt
  | (propName, normalize) :: rest =>
      let* v := field_value propName normalize nativeEvent nativeEventTarget in
      set_this this propName v;;
      populate this nativeEvent nativeEventTarget rest
  end.

(** The default-prevention state (lines 112-115). *)
Definition default_prevented_state (nativeEvent : value) : M value :=
  let* dp := get_prop nativeEvent "defaultPrevented" in
  if not_nullish dp then get_prop nativeEvent "defaultPrevented"
  else
    let* rv := get_prop nativeEvent "returnValue" in
    ret (VBool (strict_eq_false rv)).

(** Lines 112-121. *)
Definition init_predicates (this : loc) (nativeEvent : value) : M unit :=
  let* defaultPrevented := default_prevented_state nativeEvent in
  (if truthy defaultPrevented
   then set_this this "isDefaultPrevented" (VFun functionThatReturnsTrue)
   else set_this this "isDefaultPrevented" (VFun functionThatReturnsFalse));;
  set_this this "isPropagationStopped" (VFun functionThatReturnsFalse).

(** Lines 77-105: the three fixed fields, then the fields of the table. *)
Definition populate_fields (this : loc) (a : args) : M unit :=
  set_this this "dispatchConfig" (dispatchConfig a);;
  set_this this "_targetInst" (targetInst a);;
  set_this this "nativeEvent" (nativeEvent a);;
  (fun w => populate this (nativeEvent a) (nativeEventTarget a)
              (Interface_of w this) w).

(** The function [SyntheticEvent], called on [this]. *)
Definition SyntheticEvent (this : loc) (a : args) : M value :=
  populate_fields this a;;
  init_predicates this (nativeEvent a);;
  ret (VObj this).

(** [new C(...)]: a fresh object whose prototype is that of [C]; the
    constructor of every class ends up in [SyntheticEvent] (line 228). *)
Definition new_event (C : classId) (a : args) : M value :=
  fun w =>
    match classes w !! C with
    | None => (Throw (TypeError "not a constructor"), w)
    | Some _ =>
        let this := fresh (dom (heap w)) in
        SyntheticEvent this a
          (with_heap (<[this := mkObj (Some C) ∅]> (heap w)) w)
    end.

(** ** The methods on the prototype (lines 127-205) *)

(** [receiver.method()] where the method is the value [f]: the call is
    recorded; what the host function does to its receiver is up to the host
    (see [OpHost]).  Calling a value that is not a function is a
    [TypeError]. *)
Definition call_native (mk : value -> fn -> native_call) (receiver f : value)
  : M unit :=
  fun w =>
    match f with
    | VFun g =>
        (Ok tt,
         mkWorld (heap w) (classes w) (now w)
                 (native_calls w ++ [mk receiver g]))
    | _ => (Throw (TypeError "not a function"), w)
    end.

Definition preventDefault (this : loc) : M unit :=
  set_this this "defaultPrevented" (VBool true);;
  fun w =>
    let event := read_own (heap w) this "nativeEvent" in
    if negb (truthy event) then ret tt w
    else
      ((let* native := get_prop event "preventDefault" in
        if truthy native then call_native CallPreventDefault event native
        else
          let* returnValue := get_prop event "returnValue" in
          if negb (String.eqb (typeof returnValue) "unknown")
          then set_prop event "returnValue" (VBool false)
          else ret tt);;
       set_this this "isDefaultPrevented" (VFun functionThatReturnsTrue)) w.

Definition stopPropagation (this : loc) : M unit :=
  fun w =>
    let event := read_own (heap w) this "nativeEvent" in
    if negb (truthy event) then ret tt w
    else
      ((let* native := get_prop event "stopPropagation" in
        if truthy native then call_native CallStopPropagation event native
        else
          let* cancelBubble := get_prop event "cancelBubble" in
          if negb (String.eqb (typeof cancelBubble) "unknown")
          then set_prop event "cancelBubble" (VBool true)
          else ret tt);;
       set_this this "isPropagationStopped" (VFun functionThatReturnsTrue)) w.

Definition persist (this : loc) : M unit :=
  set_this this "isPersistent" (VFun functionThatReturnsTrue).


(** Calling a value with no arguments. *)
Definition call0 (f : value) : result value :=
  match f with
  | VFun functionThatReturnsTrue => Ok (VBool true)
  | VFun functionThatReturnsFalse => Ok (VBool false)
  | VFun (HostFunction _) => Ok VUndefined
  | _ => Throw (TypeError "not a function")
  end.

Definition isDefaultPrevented (w : world) (this : loc) : result value :=
  call0 (read_own (heap w) this "isDefaultPrevented").
Definition isPropagationStopped (w : world) (this : loc) : result value :=
  call0 (read_own (heap w) this "isPropagationStopped").

(** The loop of [destructor] (lines 194-196). *)
Fixpoint nullify (this : loc) (entries : table) (h : gmap loc obj)
  : gmap loc obj :=
  match entries with
  | [] => h
  | (propName, _) :: rest => nullify this rest (write_own h this propName VNull)
  end.

Definition destructor (this : loc) (w : world) : world :=
  let h := nullify this (Interface_of w this) (heap w) in
  let h := write_own h this "dispatchConfig" VNull in
  let h := write_own h this "_targetInst" VNull in
  let h := write_own h this "nativeEvent" VNull in
  let h := write_own h this "isDefaultPrevented"
                     (VFun functionThatReturnsFalse) in
  let h := write_own h this "isPropagationStopped"
                     (VFun functionThatReturnsFalse) in
  let h := write_own h this "_dispatchListeners" VNull in
  let h := write_own h this "_dispatchInstances" VNull in
  with_heap h w.

(** ** [extend] (lines 214-242) *)

(** [target[k] = v] on the property list of an object: an existing property
    keeps its place, a new one goes last. *)
Fixpoint assign_prop (k : string) (v : rule) (target : table) : table :=
  match target with
  | [] => [(k, v)]
  | (k', v') :: rest =>
      if decide (k = k') then (k, v) :: rest
      else (k', v') :: assign_prop k v rest
  end.

(** [Object.assign(target, source)]. *)
Definition Object_assign (target source : table) : table :=
  fold_left (fun acc kv => assign_prop kv.1 kv.2 acc) source target.

Definition set_pool (C : classId) (pool : list loc) (w : world) : world :=
  with_classes
    (alter (fun cls => mkClass (super cls) (Interface cls) pool) C (classes w))
    w.

Definition extend (Super : classId) (Interface' : table) : M classId :=
  fun w =>
    match classes w !! Super with
    | None => (Throw (TypeError "extend is not a function"), w)
    | Some sup =>
        let Class :=
          mkClass (Some Super)
                  (Object_assign (Object_assign [] (Interface sup)) Interface')
                  [] in
        (Ok (length (classes w)), with_classes (classes w ++ [Class]) w)
    end.

(** ** Pooling (lines 246-297) *)

Definition EVENT_POOL_SIZE : nat := 10.

Definition release_type_mismatch : error :=
  InvariantViolation
    "Trying to release an event instance into a pool of a different type.".

Definition pool_of (w : world) (C : classId) : list loc :=
  match classes w !! C with
  | Some cls => eventPool cls
  | None => []
  end.

Definition getPooled (C : classId) (a : args) : M value :=
  fun w =>
    match classes w !! C with
    | None => (Throw (TypeError "getPooled is not a function"), w)
    | Some cls =>
        match eventPool cls with
        | instance :: rest => SyntheticEvent instance a (set_pool C rest w)
        | [] => new_event C a w
        end
    end.

(** Whether class [D] is [C] or inherits from it. *)
Fixpoint inherits (fuel : nat) (cs : list class) (D C : classId) : bool :=
  if decide (D = C) then true
  else
    match fuel with
    | O => false
    | S fuel' =>
        match cs !! D ≫= super with
        | Some P => inherits fuel' cs P C
        | None => false
        end
    end.

(** [v instanceof C]. *)
Definition instanceof (w : world) (v : value) (C : classId) : bool :=
  match v with
  | VObj l =>
      match proto_of (heap w) l with
      | Some D => inherits (length (classes w)) (classes w) D C
      | None => false
      end
  | _ => false
  end.

Definition release (C : classId) (event : value) : M unit :=
  fun w =>
    match classes w !! C with
    | None => (Throw (TypeError "release is not a function"), w)
    | Some _ =>
        match event with
        | VObj e =>
            if instanceof w event C then
              let w := destructor e w in
              if decide (length (pool_of w C) < EVENT_POOL_SIZE)
              then (Ok tt, set_pool C (e :: pool_of w C) w)
              else (Ok tt, w)
            else (Throw release_type_mismatch, w)
        | _ => (Throw release_type_mismatch, w)
        end
    end.

(** The module as loaded: the base class [SyntheticEvent] with its pool
    (line 301), no object allocated yet. *)
Definition SyntheticEventClass : classId := 0.

Definition initial_world (now : Z) : world :=
  mkWorld ∅ [mkClass None EventInterface []] now [].

(** [w'] differs from [w] at most in the own properties of [this]. *)
Definition only_props_of (this : loc) (w w' : world) : Prop :=
  classes w' = classes w /\ now w' = now w /\
  native_calls w' = native_calls w /\
  (forall l, proto_of (heap w') l = proto_of (heap w) l) /\
  (forall l, l <> this -> own_props (heap w') l = own_props (heap w) l) /\
  (forall l, is_Some (heap w !! l) -> is_Some (heap w' !! l)).

(** The tables of [w'] are tables of [w]. *)
Definition tables_from (w w' : world) : Prop :=
  forall C cls',
    classes w' !! C = Some cls' ->
    exists cls, classes w !! C = Some cls /\ Interface cls' = Interface cls.

(** The own properties the constructor assigns besides those of the table
    (lines 77-79, 117-121). *)
Definition constructor_fields : list string :=
  ["dispatchConfig"; "_targetInst"; "nativeEvent"; "isDefaultPrevented";
   "isPropagationStopped"].

(** Every class was created by [extend] from a class that existed before. *)
Definition supers_older (w : world) : Prop :=
  forall C cls P,
    classes w !! C = Some cls -> super cls = Some P -> P < C.


(** Every table declares the fields of the base [EventInterface]. *)
Definition keeps_base_fields (w : world) : Prop :=
  forall C cls k,
    classes w !! C = Some cls -> k ∈ EventInterface.*1 ->
    k ∈ (Interface cls).*1.

(** The same classes, up to the contents of their pools. *)
Definition same_hierarchy (cs cs' : list class) : Prop :=
  length cs' = length cs /\
  forall C, (fun c => (super c, Interface c)) <$> cs' !! C
            = (fun c => (super c, Interface c)) <$> cs !! C.

(** [C.extend(D1).extend(D2)...]. *)
Fixpoint extend_chain (C : classId) (Ds : list table) : M classId :=
  match Ds with
  | [] => ret C
  | D :: rest => let* C' := extend C D in extend_chain C' rest
  end.

(** ** What the rest of the system does with the module *)

Inductive op : Type :=
  | OpGetPooled (C : classId) (a : args)
  | OpRelease (C : classId) (event : value)
  | OpNew (C : classId) (a : args)
  | OpExtend (Super : classId) (Interface' : table)
  | OpPreventDefault (this : loc)
  | OpStopPropagation (this : loc)
  | OpPersist (this : loc)
  (** anything the host does to objects: creating native events, filling
      [_dispatchListeners], ... *)
  | OpHost (f : gmap loc obj -> gmap loc obj)
  | OpTick (t : Z).

Definition step (o : op) (w : world) : world :=
  match o with
  | OpGetPooled C a => (getPooled C a w).2
  | OpRelease C event => (release C event w).2
  | OpNew C a => (new_event C a w).2
  | OpExtend Super Interface' => (extend Super Interface' w).2
  | OpPreventDefault this => (preventDefault this w).2
  | OpStopPropagation this => (stopPropagation this w).2
  | OpPersist this => (persist this w).2
  | OpHost f => with_heap (f (heap w)) w
  | OpTick t => mkWorld (heap w) (classes w) t (native_calls w)
  end.

Definition run_ops (ops : list op) (w : world) : world :=
  fold_left (fun w o => step o w) ops w.

(** ** A concrete run

    A legacy native event (no [defaultPrevented], [returnValue] false) is
    created by the host at location 0; an event is acquired from the pool of
    the base class for it (location 1), then released. *)
Definition legacy_native : obj :=
  mkObj None {[ "type" := VStr "click"; "returnValue" := VBool false ]}.

Definition click_args : args :=
  mkArgs (VStr "onClick") (VStr "button") (VObj 0) (VStr "node").

Definition null_args : args :=
  mkArgs (VStr "onClick") (VStr "button") VNull (VStr "node").

Definition world_with_native : world :=
  run_ops [OpHost (fun h => <[0 := legacy_native]> h)] (initial_world 1000).

Definition world_acquired : world :=
  step (OpGetPooled SyntheticEventClass click_args) world_with_native.

Definition world_released : world :=
  step (OpRelease SyntheticEventClass (VObj 1)) world_acquired.


(** A class derived from the base class (class 1), an instance of it
    (location 1) and an instance of the base class (location 2). *)
Definition world_two_classes : world :=
  run_ops [OpExtend SyntheticEventClass [("view", None); ("detail", None)];
           OpGetPooled 1 click_args;
           OpGetPooled SyntheticEventClass click_args]
          world_with_native.

(** Eleven events are acquired (locations 1 to 11) and the first ten are
    released: the pool of the base class is full. *)
Definition world_full_pool : world :=
  run_ops (replicate 11 (OpGetPooled SyntheticEventClass click_args)
           ++ map (fun l => OpRelease SyntheticEventClass (VObj l)) (seq 1 10))
          world_with_native.

(** No pool holds more than [EVENT_POOL_SIZE] instances. *)
Definition pools_bounded (w : world) : Prop :=
  forall C, length (pool_of w C) <= EVENT_POOL_SIZE.

(** The tables of the classes are property lists of objects: no name
    occurs twice. *)
Definition tables_wf (w : world) : Prop :=
  forall C cls, classes w !! C = Some cls -> NoDup (Interface cls).*1.

(** ** Reading a table, and the merge of a chain of tables *)

(** The rule a table holds for a field name: as in an object literal, a later
    entry for the same name wins. *)
Fixpoint table_lookup (k : string) (t : table) : option rule :=
  match t with
  | [] => None
  | (k', r) :: rest =>
      match table_lookup k rest with
      | Some r' => Some r'
      | None => if decide (k = k') then Some r else None
      end
  end.

(** The merge of the tables of a chain of classes, oldest ancestor first,
    read at one field name: the entry of the most derived table that declares
    the name. *)
Fixpoint merged_lookup (k : string) (ancestors : list table) : option rule :=
  match ancestors with
  | [] => None
  | t :: derived =>
      match merged_lookup k derived with
      | Some r => Some r
      | None => table_lookup k t
      end
  end.

(** The table of the class at the end of a chain of extensions, computed as
    [extend] computes it, one [Object.assign] per link. *)
Definition merge_tables (base : table) (Ds : list table) : table :=
  fold_left (fun acc D => Object_assign (Object_assign [] acc) D) Ds base.

(** Two tables of a UI-event flavour, for a chain of two extensions. *)
Definition UIEventInterface : table :=
  [("view", None); ("detail", None)].
Definition MouseEventInterface : table :=
  [("detail", Some (fun _ _ _ => Ok (VNum 0))); ("screenX", None)].

(** What the constructor leaves in field [k] of an instance, as a function
    of the arguments of the call, the own fields of its native event and
    the clock: the two predicates are written last, the fields of the table
    before them. *)
Definition native_fields (w : world) (nativeEvent : value)
  : gmap string value :=
  match nativeEvent with
  | VObj l => own_props (heap w) l
  | _ => ∅
  end.

Definition native_field (w : world) (nativeEvent : value) (k : string)
  : value :=
  default VUndefined (native_fields w nativeEvent !! k).

(** No function rule of any class throws when handed a native event that is
    an object. *)
Definition normalizers_total (w : world) : Prop :=
  forall C cls k f,
    classes w !! C = Some cls -> (k, Some f) ∈ Interface cls ->
    forall n fields t, is_Ok (f (VObj n) fields t) = true.

Definition default_prevention (defaultPrevented returnValue : value) : value :=
  if not_nullish defaultPrevented then defaultPrevented
  else VBool (strict_eq_false returnValue).

(** The value the loop of the constructor assigns for one entry. *)
Definition rule_value (k : string) (r : rule) (a : args)
  (fields : gmap string value) (now : Z) : result value :=
  match r with
  | Some f => f (nativeEvent a) fields now
  | None =>
      if decide (k = "target") then Ok (nativeEventTarget a)
      else Ok (default VUndefined (fields !! k))
  end.

Definition constructed_field (k : string) (r : rule) (a : args)
  (fields : gmap string value) (now : Z) : result value :=
  if decide (k = "isPropagationStopped")
  then Ok (VFun functionThatReturnsFalse)
  else if decide (k = "isDefaultPrevented")
  then Ok (VFun (if truthy (default_prevention
                              (default VUndefined (fields !! "defaultPrevented"))
                              (default VUndefined (fields !! "returnValue")))
                 then functionThatReturnsTrue else functionThatReturnsFalse))
  else rule_value k r a fields now.

(** A second call, for the same native event, with other arguments. *)
Definition keydown_args : args :=
  mkArgs (VStr "onKeyDown") (VStr "input") (VObj 0) (VStr "field").

End Events.

(** * Facts about the batching coordinator *)

Module BatchingFacts.
Import Batching.

Section CoordinatorFacts.

Context {X : Type}.
Variable needsStateRestore : X -> bool.
Variable restoreStateIfNeeded : X -> X.

Local Abbreviation run := (run needsStateRestore restoreStateIfNeeded).
Local Abbreviation batchedUpdates :=
  (batchedUpdates needsStateRestore restoreStateIfNeeded).
Local Abbreviation finally_block :=
  (finally_block needsStateRestore restoreStateIfNeeded).
Local Abbreviation restoration_check :=
  (restoration_check needsStateRestore).

Lemma quiet_step_refl (s : @state X) : quiet_step s s.
Proof. split; [done|]. exists []. by rewrite app_nil_r. Qed.

Lemma quiet_step_trans (s1 s2 s3 : @state X) :
  quiet_step s1 s2 -> quiet_step s2 s3 -> quiet_step s1 s3.
Proof.
  intros [Hf1 (b1 & Hl1 & Hq1)] [Hf2 (b2 & Hl2 & Hq2)]. split.
  - congruence.
  - exists (b1 ++ b2). split.
    + by rewrite Hl2, Hl1, app_assoc.
    + by apply Forall_app.
Qed.

Lemma quiet_step_emit e (s : @state X) :
  is_check e = false -> quiet_step s (emit e s).
Proof.
  intros He. split; [done|]. exists [e]. split; [done|].
  by constructor.
Qed.

Lemma quiet_step_touch f (s : @state X) : quiet_step s (touch f s).
Proof. split; [done|]. exists []. by rewrite app_nil_r. Qed.

Lemma run_strategy_quiet (fn : value -> value -> @M X outcome) st :
  (forall a b, quiet (fn a b)) -> quiet (run_strategy fn st).
Proof.
  intros Hfn. induction st as [v|e|tag k IH|f k IH|a b onR IHr onT IHt];
    intros s Hs; simpl.
  - apply quiet_step_refl.
  - apply quiet_step_refl.
  - eapply quiet_step_trans; [by apply (quiet_step_emit (EvWork tag))|].
    by apply IH.
  - eapply quiet_step_trans; [apply quiet_step_touch|]. by apply IH.
  - pose proof (Hfn a b s Hs) as Hq.
    destruct (fn a b s) as [[v|e] s'] eqn:E; simpl in Hq.
    + eapply quiet_step_trans; [exact Hq|].
      apply IHr. destruct Hq as [-> _]. done.
    + eapply quiet_step_trans; [exact Hq|].
      apply IHt. destruct Hq as [-> _]. done.
Qed.

Lemma flushInteractiveUpdates_quiet_step (s : @state X) :
  quiet_step s (flushInteractiveUpdates s).
Proof.
  split; [done|]. exists [EvFlushInteractive (isBatching s)].
  split; [done|]. by constructor.
Qed.

(** Client code, whatever its nesting, is quiet. *)
Lemma run_quiet c : quiet (run c).
Proof.
  induction c as [v|e|tag k IH|f k IH|fn IHfn bk onR IHr onT IHt
                  |fn IHfn a b onR IHr onT IHt|k IH|bi ii fi k IH];
    intros s Hs; simpl.
  - apply quiet_step_refl.
  - apply quiet_step_refl.
  - eapply quiet_step_trans; [by apply (quiet_step_emit (EvWork tag))|].
    by apply IH.
  - eapply quiet_step_trans; [apply quiet_step_touch|]. by apply IH.
  - unfold Batching.batchedUpdates. rewrite Hs.
    pose proof (IHfn bk s Hs) as Hq.
    destruct (run (fn bk) s) as [[v|e] s'] eqn:E; simpl in Hq.
    + eapply quiet_step_trans; [exact Hq|].
      apply IHr. destruct Hq as [-> _]. done.
    + eapply quiet_step_trans; [exact Hq|].
      apply IHt. destruct Hq as [-> _]. done.
  - unfold interactiveUpdates.
    pose proof (run_strategy_quiet (fun x y => run (fn x y))
                  (_interactiveUpdatesImpl s a b)
                  (fun x y => IHfn x y) s Hs) as Hq.
    destruct (run_strategy _ _ s) as [[v|e] s'] eqn:E; simpl in Hq.
    + eapply quiet_step_trans; [exact Hq|].
      apply IHr. destruct Hq as [-> _]. done.
    + eapply quiet_step_trans; [exact Hq|].
      apply IHt. destruct Hq as [-> _]. done.
  - eapply quiet_step_trans; [apply flushInteractiveUpdates_quiet_step|].
    by apply IH.
  - eapply quiet_step_trans; [|by apply IH]. split; [done|].
    exists []. by rewrite app_nil_r.
Qed.

Lemma finally_block_log s :
  log (finally_block s) = log s ++ restoration_check (controlled s).
Proof.
  unfold Batching.finally_block, call_needsStateRestore,
    Batching.restoration_check.
  simpl. destruct (needsStateRestore (controlled s)); simpl.
  - by rewrite <- !app_assoc.
  - done.
Qed.

Lemma finally_block_isBatching s : isBatching (finally_block s) = false.
Proof.
  unfold Batching.finally_block, call_needsStateRestore. simpl.
  by destruct (needsStateRestore (controlled s)).
Qed.





Lemma set_isBatching_same (s : @state X) b :
  isBatching s = b -> set_isBatching b s = s.
Proof. destruct s; simpl; by intros ->. Qed.


End CoordinatorFacts.




End BatchingFacts.

(** * Facts about synthetic events *)

Module EventsFacts.
Import Events.

Local Open Scope string_scope.
Local Open Scope list_scope.

(** ** Reads and writes of own properties *)

Lemma own_props_write_same h l k x :
  own_props (write_own h l k x) l = <[k := x]> (own_props h l).
Proof. unfold own_props at 1, write_own. by rewrite lookup_insert_eq. Qed.

Lemma own_props_write_other h l l' k x :
  l <> l' -> own_props (write_own h l k x) l' = own_props h l'.
Proof.
  intros Hne. unfold own_props, write_own. by rewrite lookup_insert_ne.
Qed.

Lemma proto_of_write h l l' k x :
  proto_of (write_own h l k x) l' = proto_of h l'.
Proof.
  unfold proto_of at 1, write_own. destruct (decide (l = l')) as [->|Hne].
  - by rewrite lookup_insert_eq.
  - by rewrite lookup_insert_ne.
Qed.

Lemma read_write_same h l k x : read_own (write_own h l k x) l k = x.
Proof.
  unfold read_own. by rewrite own_props_write_same, lookup_insert_eq.
Qed.

Lemma read_write_other_key h l k k' x :
  k <> k' -> read_own (write_own h l k x) l k' = read_own h l k'.
Proof.
  intros Hne. unfold read_own.
  by rewrite own_props_write_same, lookup_insert_ne.
Qed.




Lemma write_own_is_Some h l l' k x :
  is_Some (h !! l') -> is_Some (write_own h l k x !! l').
Proof.
  intros H. unfold write_own. destruct (decide (l = l')) as [->|Hne].
  - rewrite lookup_insert_eq. eauto.
  - by rewrite lookup_insert_ne.
Qed.

Lemma write_own_is_Some_same h l k x : is_Some (write_own h l k x !! l).
Proof. unfold write_own. rewrite lookup_insert_eq. eauto. Qed.

Lemma Interface_of_with_heap w h this :
  proto_of h this = proto_of (heap w) this ->
  Interface_of (with_heap h w) this = Interface_of w this.
Proof. unfold Interface_of. simpl. by intros ->. Qed.

Lemma Interface_of_eq w' w this :
  classes w' = classes w -> proto_of (heap w') this = proto_of (heap w) this ->
  Interface_of w' this = Interface_of w this.
Proof. unfold Interface_of. by intros -> ->. Qed.

(** ** Frame properties of the constructor *)

Lemma only_props_of_refl this w : only_props_of this w w.
Proof. by repeat split. Qed.

Lemma only_props_of_trans this w1 w2 w3 :
  only_props_of this w1 w2 -> only_props_of this w2 w3 ->
  only_props_of this w1 w3.
Proof.
  intros (A1 & A2 & A3 & A4 & A5 & A6) (B1 & B2 & B3 & B4 & B5 & B6).
  unfold only_props_of.
  split_and!; [congruence|congruence|congruence| | |].
  - intros l. by rewrite B4, A4.
  - intros l Hl. by rewrite B5, A5.
  - intros l Hl. by apply B6, A6.
Qed.

Lemma only_props_of_write this k x w :
  only_props_of this w (with_heap (write_own (heap w) this k x) w).
Proof.
  repeat split; simpl.
  - intros l. apply proto_of_write.
  - intros l Hl. by apply own_props_write_other.
  - intros l Hl. by apply write_own_is_Some.
Qed.

Lemma only_props_of_Interface this w w' l :
  only_props_of this w w' -> Interface_of w' l = Interface_of w l.
Proof.
  intros (A1 & _ & _ & A4 & _). unfold Interface_of. by rewrite A4, A1.
Qed.

Lemma get_prop_world v k w : (get_prop v k w).2 = w.
Proof. by destruct v. Qed.

Lemma call_normalizer_world f v w : (call_normalizer f v w).2 = w.
Proof. done. Qed.

Lemma field_value_world k r ne net w : (field_value k r ne net w).2 = w.
Proof.
  unfold field_value. destruct r as [f|]; [done|].
  case_decide; [done|]. apply get_prop_world.
Qed.

Lemma populate_frame this ne net entries w :
  only_props_of this w (populate this ne net entries w).2.
Proof.
  revert w. induction entries as [|[k r] rest IH]; intros w; simpl.
  - apply only_props_of_refl.
  - unfold bind. pose proof (field_value_world k r ne net w) as Hw.
    destruct (field_value k r ne net w) as [[v|e] w1]; simpl in Hw; subst w1.
    + simpl. eapply only_props_of_trans; [|apply IH].
      apply only_props_of_write.
    + apply only_props_of_refl.
Qed.

Lemma populate_fields_frame this a w :
  only_props_of this w (populate_fields this a w).2.
Proof.
  unfold populate_fields, bind, set_this. simpl.
  eapply only_props_of_trans; [apply only_props_of_write|].
  eapply only_props_of_trans; [apply only_props_of_write|].
  eapply only_props_of_trans; [apply only_props_of_write|].
  match goal with |- context [populate ?t ?n ?nt ?e ?w] =>
    pose proof (populate_frame t n nt e w) as H;
    destruct (populate t n nt e w) as [[[]|err] w1] end; exact H.
Qed.

(** ** The default-prevention state *)

Lemma get_prop_native ne k w :
  not_nullish ne = true -> get_prop ne k w = (Ok (native_field w ne k), w).
Proof. by destruct ne. Qed.

Lemma get_prop_nullish ne k w :
  not_nullish ne = false -> is_Ok (get_prop ne k w).1 = false.
Proof. by destruct ne. Qed.

Lemma default_prevented_state_ok ne w :
  not_nullish ne = true ->
  default_prevented_state ne w
  = (Ok (default_prevention (native_field w ne "defaultPrevented")
                            (native_field w ne "returnValue")), w).
Proof.
  intros Hne. unfold default_prevented_state, bind, default_prevention.
  rewrite (get_prop_native _ _ _ Hne).
  destruct (not_nullish (native_field w ne "defaultPrevented")).
  - by rewrite (get_prop_native _ _ _ Hne).
  - by rewrite (get_prop_native _ _ _ Hne).
Qed.

Lemma default_prevented_state_nullish ne w :
  not_nullish ne = false -> is_Ok (default_prevented_state ne w).1 = false.
Proof. by destruct ne. Qed.

Lemma init_predicates_ok this ne w :
  not_nullish ne = true ->
  init_predicates this ne w
  = (Ok tt,
     with_heap
       (write_own
          (write_own (heap w) this "isDefaultPrevented"
             (VFun (if truthy (default_prevention
                                 (native_field w ne "defaultPrevented")
                                 (native_field w ne "returnValue"))
                    then functionThatReturnsTrue
                    else functionThatReturnsFalse)))
          this "isPropagationStopped" (VFun functionThatReturnsFalse)) w).
Proof.
  intros Hne. unfold init_predicates, bind.
  rewrite (default_prevented_state_ok _ _ Hne).
  by destruct (truthy _).
Qed.

Lemma init_predicates_nullish this ne w :
  not_nullish ne = false -> is_Ok (init_predicates this ne w).1 = false.
Proof. by destruct ne. Qed.

(** The constructor, split at the end of field population. *)
Lemma SyntheticEvent_unfold this a w :
  SyntheticEvent this a w
  = match populate_fields this a w with
    | (Ok _, w1) =>
        match init_predicates this (nativeEvent a) w1 with
        | (Ok _, w2) => (Ok (VObj this), w2)
        | (Throw e, w2) => (Throw e, w2)
        end
    | (Throw e, w1) => (Throw e, w1)
    end.
Proof.
  unfold SyntheticEvent, bind.
  destruct (populate_fields this a w) as [[[]|e] w1]; [|done].
  by destruct (init_predicates this (nativeEvent a) w1) as [[[]|e] w2].
Qed.

(** C2. For every instance the constructor returns: once the fields are
    populated (world [w1]), the default-prevention state is the native
    event's [defaultPrevented] when that is neither null nor undefined, else
    [returnValue === false]; [isDefaultPrevented] is
    [functionThatReturnsTrue] exactly when that state is truthy (and
    [functionThatReturnsFalse] otherwise), and [isPropagationStopped] is
    [functionThatReturnsFalse].  When the native event is an object other
    than the instance, its fields are those it had before the call. *)
Theorem SyntheticEvent_default_prevention this a w :
  is_Ok (SyntheticEvent this a w).1 = true ->
  let w' := (SyntheticEvent this a w).2 in
  let w1 := (populate_fields this a w).2 in
  let prevented :=
    default_prevention (native_field w1 (nativeEvent a) "defaultPrevented")
                       (native_field w1 (nativeEvent a) "returnValue") in
  default_prevented_state (nativeEvent a) w1 = (Ok prevented, w1) /\
  (read_own (heap w') this "isDefaultPrevented"
   = VFun (if truthy prevented then functionThatReturnsTrue
           else functionThatReturnsFalse)) /\
  (read_own (heap w') this "isDefaultPrevented" = VFun functionThatReturnsTrue
   <-> truthy prevented = true) /\
  isDefaultPrevented w' this = Ok (VBool (truthy prevented)) /\
  (read_own (heap w') this "isPropagationStopped"
   = VFun functionThatReturnsFalse) /\
  isPropagationStopped w' this = Ok (VBool false) /\
  (forall n, nativeEvent a = VObj n -> n <> this ->
             native_fields w1 (VObj n) = native_fields w (VObj n)).
Proof.
  intros Hrun w' w1 prevented. subst w'.
  rewrite SyntheticEvent_unfold in Hrun |- *.
  pose proof (populate_fields_frame this a w) as Hframe.
  fold w1 in Hframe.
  destruct (populate_fields this a w) as [[[]|e] w1'] eqn:Hpop;
    [|discriminate]. simpl in w1. subst w1.
  destruct (not_nullish (nativeEvent a)) eqn:Hne.
  - rewrite (init_predicates_ok _ _ _ Hne) in Hrun |- *.
    clear Hrun. fold prevented. simpl.
    assert (read_own
              (write_own
                 (write_own (heap w1') this "isDefaultPrevented"
                    (VFun (if truthy prevented then functionThatReturnsTrue
                           else functionThatReturnsFalse)))
                 this "isPropagationStopped" (VFun functionThatReturnsFalse))
              this "isDefaultPrevented"
            = VFun (if truthy prevented then functionThatReturnsTrue
                    else functionThatReturnsFalse)) as Hdp.
    { rewrite read_write_other_key by done. apply read_write_same. }
    split_and!.
    + by apply default_prevented_state_ok.
    + exact Hdp.
    + rewrite Hdp. destruct (truthy prevented); split; congruence.
    + unfold isDefaultPrevented. simpl. rewrite Hdp.
      by destruct (truthy prevented).
    + apply read_write_same.
    + unfold isPropagationStopped. simpl. by rewrite read_write_same.
    + intros n _ Hn. simpl. destruct Hframe as (_ & _ & _ & _ & H & _).
      by apply H.
  - pose proof (init_predicates_nullish this _ w1' Hne) as Hthrow.
    destruct (init_predicates this (nativeEvent a) w1') as [[[]|e] w2];
      [discriminate Hthrow|discriminate Hrun].
Qed.

Lemma SyntheticEvent_default_prevention_witness :
  (getPooled SyntheticEventClass click_args world_with_native).1
    = Ok (VObj 1) /\
  native_field world_with_native (VObj 0) "defaultPrevented" = VUndefined /\
  native_field world_with_native (VObj 0) "returnValue" = VBool false /\
  isDefaultPrevented world_acquired 1 = Ok (VBool true).
Proof.
  split_and!; [by vm_compute..|].
  assert (is_Ok (SyntheticEvent 1 click_args
                   (with_heap (<[1 := mkObj (Some SyntheticEventClass) ∅]>
                                 (heap world_with_native))
                              world_with_native)).1 = true)
    as Hrun by (by vm_compute).
  destruct (SyntheticEvent_default_prevention _ _ _ Hrun)
    as (_ & _ & _ & Hcall & _).
  change (isDefaultPrevented world_acquired 1)
    with (isDefaultPrevented
            (SyntheticEvent 1 click_args
               (with_heap (<[1 := mkObj (Some SyntheticEventClass) ∅]>
                             (heap world_with_native))
                          world_with_native)).2 1).
  rewrite Hcall. by vm_compute.
Defined.

(** ** Construction and the native event *)

Lemma populate_throw_nullish this ne net entries w :
  not_nullish ne = false ->
  (populate this ne net entries w).1 = Ok tt ->
  forall k r, (k, r) ∈ entries -> r <> None \/ k = "target".
Proof.
  intros Hne. revert w. induction entries as [|[k r] rest IH]; intros w Hok.
  - intros k r Hin. by apply elem_of_nil in Hin.
  - simpl in Hok. unfold bind in Hok.
    pose proof (field_value_world k r ne net w) as Hw.
    destruct (field_value k r ne net w) as [[v|e] w1] eqn:Hfv;
      [|discriminate]. simpl in *. subst w1.
    intros k' r' [Heq|Hin]%elem_of_cons.
    + injection Heq as -> ->. destruct r as [f|]; [by left|]. right.
      unfold field_value in Hfv. case_decide; [done|].
      pose proof (get_prop_nullish ne k w Hne) as Hthrow.
      rewrite Hfv in Hthrow. discriminate.
    + eapply IH; eauto.
Qed.

Lemma populate_ok this n net entries w :
  (forall k f, (k, Some f) ∈ entries ->
     forall fields t, is_Ok (f (VObj n) fields t) = true) ->
  (populate this (VObj n) net entries w).1 = Ok tt.
Proof.
  revert w. induction entries as [|[k r] rest IH]; intros w Htot; [done|].
  simpl. unfold bind.
  assert (exists v, field_value k r (VObj n) net w = (Ok v, w)) as [v ->].
  { unfold field_value. destruct r as [f|].
    - unfold call_normalizer.
      pose proof (Htot k f (list_elem_of_here _ _) (own_props (heap w) n)
                       (now w)) as Hf.
      destruct (f (VObj n) (own_props (heap w) n) (now w)); [eauto|done].
    - case_decide; unfold ret, get_prop; eauto. }
  simpl. apply IH. intros k' f Hin. apply (Htot k' f). by right.
Qed.


Lemma populate_fields_ok this a n w :
  nativeEvent a = VObj n ->
  (forall k f, (k, Some f) ∈ Interface_of w this ->
     forall fields t, is_Ok (f (VObj n) fields t) = true) ->
  (populate_fields this a w).1 = Ok tt.
Proof.
  intros Hn Htot. unfold populate_fields, bind, set_this. simpl.
  match goal with |- context [populate ?t ?ne ?nt ?e ?w0] =>
    assert ((populate t ne nt e w0).1 = Ok tt) as H end.
  { rewrite Hn. apply populate_ok.
    rewrite (Interface_of_eq _ w); [exact Htot|done|].
    simpl. by rewrite !proto_of_write. }
  match goal with |- context [populate ?t ?ne ?nt ?e ?w0] =>
    destruct (populate t ne nt e w0) as [[[]|e'] w1] end; done.
Qed.

Lemma SyntheticEvent_ok this a n w :
  nativeEvent a = VObj n ->
  (forall k f, (k, Some f) ∈ Interface_of w this ->
     forall fields t, is_Ok (f (VObj n) fields t) = true) ->
  (SyntheticEvent this a w).1 = Ok (VObj this).
Proof.
  intros Hn Htot. rewrite SyntheticEvent_unfold.
  pose proof (populate_fields_ok this a n w Hn Htot) as Hpop.
  destruct (populate_fields this a w) as [[[]|e] w1]; [|done].
  rewrite init_predicates_ok by (by rewrite Hn). done.
Qed.

Lemma normalizers_total_Interface_of w this n :
  normalizers_total w ->
  forall k f, (k, Some f) ∈ Interface_of w this ->
    forall fields t, is_Ok (f (VObj n) fields t) = true.
Proof.
  intros Htot k f Hin. unfold Interface_of in Hin.
  destruct (proto_of (heap w) this) as [c|]; [|by apply elem_of_nil in Hin].
  destruct (classes w !! c) as [cls|] eqn:Hc; [|by apply elem_of_nil in Hin].
  intros fields t. by eapply Htot.
Qed.

Lemma set_pool_lookup C pool w D cls' :
  classes (set_pool C pool w) !! D = Some cls' ->
  exists cls, classes w !! D = Some cls /\ Interface cls' = Interface cls /\
              super cls' = super cls /\
              eventPool cls' = if decide (C = D) then pool else eventPool cls.
Proof.
  unfold set_pool. simpl. intros H.
  destruct (decide (C = D)) as [->|Hne]; simpl.
  - rewrite list_lookup_alter_eq in H.
    destruct (classes w !! D) as [cls|]; simplify_eq/=. by exists cls.
  - rewrite list_lookup_alter_ne in H by done. by exists cls'.
Qed.

Lemma normalizers_total_set_pool C pool w :
  normalizers_total w -> normalizers_total (set_pool C pool w).
Proof.
  intros Htot D cls' k f Hcls Hin.
  destruct (set_pool_lookup _ _ _ _ _ Hcls) as (cls & Hc & HI & _).
  rewrite HI in Hin. by eapply Htot.
Qed.


Lemma EventInterface_total k f :
  (k, Some f) ∈ EventInterface ->
  forall n fields t, is_Ok (f (VObj n) fields t) = true.
Proof.
  unfold EventInterface. intros Hin n fields t.
  repeat (apply elem_of_cons in Hin as [Hin|Hin];
          [try discriminate Hin|]).
  - injection Hin as _ ->. done.
  - injection Hin as _ ->. unfold timeStamp_rule.
    by destruct (truthy _).
  - by apply elem_of_nil in Hin.
Qed.



(** ** The dispatch-time mutators *)


Lemma own_lookup_write h l l' k k' x :
  own_props (write_own h l k x) l' !! k'
  = if decide (l = l' /\ k = k') then Some x else own_props h l' !! k'.
Proof.
  case_decide as H.
  - destruct H as [-> ->]. by rewrite own_props_write_same, lookup_insert_eq.
  - destruct (decide (l = l')) as [->|Hl].
    + rewrite own_props_write_same, lookup_insert_ne; naive_solver.
    + by rewrite own_props_write_other.
Qed.


















(** ** What the operations do to the classes *)

Lemma init_predicates_frame this ne w :
  only_props_of this w (init_predicates this ne w).2.
Proof.
  destruct (not_nullish ne) eqn:Hne.
  - rewrite init_predicates_ok by done. simpl.
    eapply only_props_of_trans;
      [apply only_props_of_write|apply (only_props_of_write this _ _
         (with_heap _ w))].
  - unfold init_predicates, bind.
    destruct ne; try discriminate Hne; apply only_props_of_refl.
Qed.

Lemma SyntheticEvent_frame this a w :
  only_props_of this w (SyntheticEvent this a w).2.
Proof.
  rewrite SyntheticEvent_unfold.
  pose proof (populate_fields_frame this a w) as H1.
  destruct (populate_fields this a w) as [[[]|e] w1]; [|exact H1].
  pose proof (init_predicates_frame this (nativeEvent a) w1) as H2.
  destruct (init_predicates this (nativeEvent a) w1) as [[[]|e] w2];
    by eapply only_props_of_trans.
Qed.

Lemma new_event_classes C a w : classes (new_event C a w).2 = classes w.
Proof.
  unfold new_event. destruct (classes w !! C); [|done].
  match goal with |- context [SyntheticEvent ?t a ?w0] =>
    by destruct (SyntheticEvent_frame t a w0) as [-> _] end.
Qed.

Lemma nullify_frame this entries h :
  (forall l, proto_of (nullify this entries h) l = proto_of h l) /\
  (forall l, l <> this ->
     own_props (nullify this entries h) l = own_props h l) /\
  (forall l, is_Some (h !! l) -> is_Some (nullify this entries h !! l)).
Proof.
  revert h. induction entries as [|[k r] rest IH]; intros h; [done|].
  simpl. destruct (IH (write_own h this k VNull)) as (A & B & D).
  split_and!.
  - intros l. by rewrite A, proto_of_write.
  - intros l Hl. by rewrite B, own_props_write_other.
  - intros l Hl. by apply D, write_own_is_Some.
Qed.


Lemma destructor_frame this w : only_props_of this w (destructor this w).
Proof.
  unfold destructor. set (h0 := nullify this (Interface_of w this) (heap w)).
  destruct (nullify_frame this (Interface_of w this) (heap w))
    as (A & B & D). fold h0 in A, B, D.
  unfold only_props_of. simpl. split_and!; [done..| | |].
  - intros l. rewrite !proto_of_write. apply A.
  - intros l Hl. rewrite !own_props_write_other by done. by apply B.
  - intros l Hl. repeat apply write_own_is_Some. by apply D.
Qed.

Lemma preventDefault_classes this w :
  classes (preventDefault this w).2 = classes w.
Proof.
  unfold preventDefault, bind, set_this, ret, get_prop, set_prop, call_native.
  simpl. repeat (case_match; simplify_eq/=; try done).
Qed.

Lemma stopPropagation_classes this w :
  classes (stopPropagation this w).2 = classes w.
Proof.
  unfold stopPropagation, bind, set_this, ret, get_prop, set_prop,
    call_native.
  simpl. repeat (case_match; simplify_eq/=; try done).
Qed.

(** ** Pools *)

Lemma pool_of_eq w w' C : classes w' = classes w -> pool_of w' C = pool_of w C.
Proof. unfold pool_of. by intros ->. Qed.

Lemma pool_of_set_pool_same C pool w :
  C < length (classes w) -> pool_of (set_pool C pool w) C = pool.
Proof.
  intros HC. unfold pool_of, set_pool. simpl.
  rewrite list_lookup_alter_eq.
  by destruct (lookup_lt_is_Some_2 _ _ HC) as [cls ->].
Qed.

Lemma pool_of_set_pool_other C D pool w :
  C <> D -> pool_of (set_pool C pool w) D = pool_of w D.
Proof.
  intros Hne. unfold pool_of, set_pool. simpl.
  by rewrite list_lookup_alter_ne.
Qed.

Lemma pool_of_None w C : classes w !! C = None -> pool_of w C = [].
Proof. unfold pool_of. by intros ->. Qed.

(** What a call of [release] that returns does to the pools. *)
Lemma release_pools C e w w' :
  release C (VObj e) w = (Ok tt, w') ->
  (length (pool_of w C) < EVENT_POOL_SIZE -> pool_of w' C = e :: pool_of w C)
  /\ (EVENT_POOL_SIZE <= length (pool_of w C) -> pool_of w' C = pool_of w C)
  /\ (forall D, D <> C -> pool_of w' D = pool_of w D).
Proof.
  unfold release. intros Hrun.
  destruct (classes w !! C) as [cls|] eqn:Hcls; [|discriminate].
  destruct (instanceof w (VObj e) C); [|discriminate].
  assert (C < length (classes w)) as HC by (by eapply lookup_lt_Some).
  destruct (destructor_frame e w) as [Hc _].
  assert (pool_of (destructor e w) C = pool_of w C) as Hp
    by (by apply pool_of_eq).
  rewrite Hp in Hrun. case_decide as Hlen; injection Hrun as <-.
  - split_and!.
    + intros _. rewrite pool_of_set_pool_same; [done|]. by rewrite Hc.
    + intros Hfull. lia.
    + intros D HD. rewrite pool_of_set_pool_other by done.
      by apply pool_of_eq.
  - split_and!.
    + intros Hlt. lia.
    + done.
    + intros D _. by apply pool_of_eq.
Qed.

Lemma release_throw_world C v w :
  (release C v w).2 = w \/ is_Ok (release C v w).1 = true.
Proof.
  unfold release. destruct (classes w !! C); [|by left].
  destruct v; try (by left).
  destruct (instanceof _ _ _); [|by left].
  right. by case_decide.
Qed.

Lemma pools_bounded_eq w w' :
  classes w' = classes w -> pools_bounded w -> pools_bounded w'.
Proof. intros Hc Hb C. rewrite (pool_of_eq _ _ _ Hc). apply Hb. Qed.

Lemma pools_bounded_set_pool C pool w :
  length pool <= EVENT_POOL_SIZE -> pools_bounded w ->
  pools_bounded (set_pool C pool w).
Proof.
  intros Hlen Hb D. destruct (decide (C = D)) as [<-|Hne].
  - destruct (decide (C < length (classes w))) as [HC|HC].
    + by rewrite pool_of_set_pool_same.
    + rewrite pool_of_None; [simpl; lia|].
      unfold set_pool. simpl. apply lookup_ge_None.
      rewrite length_alter. lia.
  - rewrite pool_of_set_pool_other by done. apply Hb.
Qed.

Lemma pools_bounded_step o w : pools_bounded w -> pools_bounded (step o w).
Proof.
  intros Hb. destruct o as [C a|C v|C a|S T|this|this|this|f|t]; simpl.
  - unfold getPooled. destruct (classes w !! C) as [cls|] eqn:Hcls; [|done].
    destruct (eventPool cls) as [|instance rest] eqn:Hpool.
    + eapply pools_bounded_eq; [apply new_event_classes|done].
    + eapply pools_bounded_eq.
      { by destruct (SyntheticEvent_frame instance a (set_pool C rest w))
          as [-> _]. }
      apply pools_bounded_set_pool; [|done].
      pose proof (Hb C) as HC. unfold pool_of in HC.
      rewrite Hcls, Hpool in HC. simpl in HC. lia.
  - destruct (release C v w) as [[[]|err] w'] eqn:Hrun; simpl.
    + destruct v as [| | | | |e|]; try (unfold release in Hrun;
        destruct (classes w !! C); discriminate Hrun).
      destruct (release_pools _ _ _ _ Hrun) as (Hlt & Hge & Hother).
      intros D. destruct (decide (D = C)) as [->|Hne].
      * destruct (decide (length (pool_of w C) < EVENT_POOL_SIZE)) as [H|H].
        -- rewrite (Hlt H). simpl. lia.
        -- rewrite Hge by lia. apply Hb.
      * rewrite Hother by done. apply Hb.
    + destruct (release_throw_world C v w) as [H|H].
      * rewrite Hrun in H. simpl in H. by subst w'.
      * rewrite Hrun in H. discriminate H.
  - eapply pools_bounded_eq; [apply new_event_classes|done].
  - unfold extend. destruct (classes w !! S) as [sup|] eqn:Hsup; [|done].
    simpl. intros D. unfold pool_of. simpl.
    destruct (decide (D < length (classes w))) as [HD|HD].
    + rewrite lookup_app_l by done. apply Hb.
    + destruct (decide (D = length (classes w))) as [->|HD'].
      * rewrite list_lookup_middle by done. simpl. lia.
      * rewrite lookup_ge_None_2; [simpl; lia|].
        rewrite length_app. simpl. lia.
  - eapply pools_bounded_eq; [apply preventDefault_classes|done].
  - eapply pools_bounded_eq; [apply stopPropagation_classes|done].
  - by eapply pools_bounded_eq.
  - by eapply pools_bounded_eq.
  - by eapply pools_bounded_eq.
Qed.

Lemma pools_bounded_run_ops ops w :
  pools_bounded w -> pools_bounded (run_ops ops w).
Proof.
  revert w. induction ops as [|o ops IH]; intros w Hb; [done|].
  simpl. by apply IH, pools_bounded_step.
Qed.

Lemma pools_bounded_initial t : pools_bounded (initial_world t).
Proof. intros [|C]; simpl; unfold EVENT_POOL_SIZE; lia. Qed.

(** C6. The pool of a class never holds more than [EVENT_POOL_SIZE] = 10
    instances, whatever sequence of operations has run since the module was
    loaded.  A call of [release] that returns puts the instance on the pool
    of its class exactly when that pool holds fewer than 10 instances; when it
    holds 10 the pool is left as it is and the instance is dropped; the pools
    of the other classes are not touched. *)
Theorem pool_never_exceeds_capacity :
  EVENT_POOL_SIZE = 10 /\
  (forall ops t C,
     length (pool_of (run_ops ops (initial_world t)) C) <= EVENT_POOL_SIZE) /\
  (forall C e w,
     (release C (VObj e) w).1 = Ok tt ->
     let w' := (release C (VObj e) w).2 in
     (length (pool_of w C) < EVENT_POOL_SIZE ->
        pool_of w' C = e :: pool_of w C) /\
     (EVENT_POOL_SIZE <= length (pool_of w C) ->
        pool_of w' C = pool_of w C) /\
     (forall D, D <> C -> pool_of w' D = pool_of w D)).
Proof.
  split_and!.
  - done.
  - intros ops t. apply pools_bounded_run_ops, pools_bounded_initial.
  - intros C e w Hok w'. apply release_pools. subst w'.
    destruct (release C (VObj e) w) as [r w']. simpl in Hok. by subst r.
Qed.

Lemma pool_never_exceeds_capacity_witness :
  length (pool_of world_full_pool SyntheticEventClass) = 10 /\
  (release SyntheticEventClass (VObj 11) world_full_pool).1 = Ok tt /\
  pool_of (release SyntheticEventClass (VObj 11) world_full_pool).2
          SyntheticEventClass
  = pool_of world_full_pool SyntheticEventClass.
Proof.
  split; [by vm_compute|].
  assert ((release SyntheticEventClass (VObj 11) world_full_pool).1 = Ok tt)
    as Hrun by (by vm_compute).
  split; [exact Hrun|].
  destruct (proj2 (proj2 pool_never_exceeds_capacity) _ _ _ Hrun)
    as (_ & Hfull & _).
  apply Hfull. vm_compute. lia.
Defined.

(** ** [release] and the destructor *)

Lemma release_heap C e w w' :
  release C (VObj e) w = (Ok tt, w') -> heap w' = heap (destructor e w).
Proof.
  unfold release. destruct (classes w !! C); [|done].
  destruct (instanceof _ _ _); [|done].
  case_decide; by intros [= <-].
Qed.







(** ** Tables and [extend] *)

Lemma assign_prop_keys k v t :
  (assign_prop k v t).*1
  = if decide (k ∈ t.*1) then t.*1 else t.*1 ++ [k].
Proof.
  induction t as [|[k' v'] rest IH]; [done|]. csimpl.
  destruct (decide (k = k')) as [->|Hne]; csimpl.
  - rewrite decide_True; [done|]. by left.
  - rewrite IH. destruct (decide (k ∈ rest.*1)) as [Hin|Hnin].
    + rewrite decide_True; [done|]. by right.
    + rewrite decide_False; [done|].
      intros [?|?]%elem_of_cons; done.
Qed.

Lemma assign_prop_NoDup k v t : NoDup t.*1 -> NoDup (assign_prop k v t).*1.
Proof.
  intros Hnd. rewrite assign_prop_keys. case_decide as Hin; [done|].
  apply NoDup_app. split_and!; [done| |apply NoDup_singleton].
  intros x Hx Hk. apply list_elem_of_singleton in Hk. by subst x.
Qed.

Lemma table_lookup_None k t : table_lookup k t = None <-> k ∉ t.*1.
Proof.
  induction t as [|[k' v'] rest IH]; simpl.
  - split; [intros _ H; by apply elem_of_nil in H|done].
  - destruct (table_lookup k rest) as [r|] eqn:E.
    + split; [done|]. intros Hnin. exfalso.
      assert (k ∉ rest.*1) as H%IH by (intros ?; apply Hnin; by right).
      discriminate H.
    + destruct (decide (k = k')) as [->|Hne].
      * split; [done|]. intros Hnin. exfalso. apply Hnin. by left.
      * split; [|done]. intros _ [?|Hin]%elem_of_cons; [done|].
        by apply (proj1 IH eq_refl).
Qed.

Lemma table_lookup_assign_prop k v t k' :
  NoDup t.*1 ->
  table_lookup k' (assign_prop k v t)
  = if decide (k' = k) then Some v else table_lookup k' t.
Proof.
  induction t as [|[k0 v0] rest IH]; intros Hnd; simpl.
  - by destruct (decide (k' = k)).
  - apply NoDup_cons in Hnd as [Hk0 Hnd].
    destruct (decide (k = k0)) as [->|Hne]; simpl.
    + destruct (decide (k' = k0)) as [->|Hne'].
      * assert (table_lookup k0 rest = None) as ->
          by (by apply table_lookup_None).
        done.
      * done.
    + rewrite IH by done.
      destruct (decide (k' = k)) as [->|Hne']; [done|]. done.
Qed.

Lemma Object_assign_NoDup target source :
  NoDup target.*1 -> NoDup (Object_assign target source).*1.
Proof.
  revert target. induction source as [|[k v] rest IH]; intros target Hnd;
    [done|].
  unfold Object_assign. simpl. apply IH. by apply assign_prop_NoDup.
Qed.

Lemma table_lookup_Object_assign target source k :
  NoDup target.*1 ->
  table_lookup k (Object_assign target source)
  = match table_lookup k source with
    | Some r => Some r
    | None => table_lookup k target
    end.
Proof.
  revert target. induction source as [|[k0 v0] rest IH]; intros target Hnd;
    [done|].
  unfold Object_assign. simpl.
  change (fold_left _ rest ?t) with (Object_assign t rest).
  rewrite IH by (by apply assign_prop_NoDup).
  destruct (table_lookup k rest) as [r|]; [done|].
  rewrite table_lookup_assign_prop by done. by case_decide.
Qed.

(** The table [extend] builds: [{...B, ...D}]. *)
Lemma table_lookup_extend B D k :
  table_lookup k (Object_assign (Object_assign [] B) D)
  = match table_lookup k D with
    | Some r => Some r
    | None => table_lookup k B
    end.
Proof.
  rewrite table_lookup_Object_assign
    by (apply Object_assign_NoDup; constructor).
  rewrite table_lookup_Object_assign by constructor.
  simpl. by destruct (table_lookup k B).
Qed.

Lemma extend_ok Super sup D w :
  classes w !! Super = Some sup ->
  extend Super D w
  = (Ok (length (classes w)),
     with_classes
       (classes w
        ++ [mkClass (Some Super)
              (Object_assign (Object_assign [] (Interface sup)) D) []]) w).
Proof. unfold extend. by intros ->. Qed.

Lemma extend_chain_ok C cls Ds w :
  classes w !! C = Some cls ->
  exists Cn clsn w',
    extend_chain C Ds w = (Ok Cn, w') /\
    classes w' !! Cn = Some clsn /\
    Interface clsn = merge_tables (Interface cls) Ds /\
    (forall k, table_lookup k (Interface clsn)
               = merged_lookup k (Interface cls :: Ds)) /\
    (Ds <> [] -> eventPool clsn = [] /\ NoDup (Interface clsn).*1) /\
    (forall D cls0, classes w !! D = Some cls0 -> classes w' !! D = Some cls0).
Proof.
  revert C cls w. induction Ds as [|D rest IH]; intros C cls w Hcls.
  - exists C, cls, w. by split_and!.
  - simpl. unfold bind. rewrite (extend_ok _ _ _ _ Hcls).
    set (cls1 := mkClass (Some C)
                   (Object_assign (Object_assign [] (Interface cls)) D) []).
    set (w1 := with_classes (classes w ++ [cls1]) w).
    assert (classes w1 !! length (classes w) = Some cls1) as Hcls1
      by (simpl; by rewrite list_lookup_middle).
    destruct (IH _ _ _ Hcls1)
      as (Cn & clsn & w' & Hrun & Hn & Htab & Hlook & Hpool & Hkeep).
    exists Cn, clsn, w'. split_and!; try done.
    + intros k. rewrite Hlook. simpl.
      destruct (merged_lookup k rest); [done|].
      apply table_lookup_extend.
    + intros _. destruct rest as [|D' rest'].
      * simpl in Hrun. injection Hrun as <- <-.
        rewrite Hcls1 in Hn. injection Hn as <-. split; [done|].
        simpl. apply Object_assign_NoDup, Object_assign_NoDup. constructor.
      * by apply Hpool.
    + intros D0 cls0 H0. apply Hkeep. simpl.
      rewrite lookup_app_l; [done|]. by eapply lookup_lt_Some.
Qed.

Lemma merged_lookup_snoc k ts D :
  merged_lookup k (ts ++ [D])
  = match table_lookup k D with
    | Some r => Some r
    | None => merged_lookup k ts
    end.
Proof.
  induction ts as [|t ts IH]; simpl.
  - by destruct (table_lookup k D).
  - rewrite IH. by destruct (table_lookup k D).
Qed.

(** C7. For every class [C] of the world (the base class [SyntheticEvent]
    among them) and every chain of tables, [C.extend(D1)...extend(Dn)]
    returns a class whose table is the left-to-right merge of the table of
    [C] and [D1], ..., [Dn]: read at any field name it yields the entry of
    the most derived table that declares the name.  The class returned can be
    extended again, and the table of the result is once more that of the
    class with the entries of the new table laid over it. *)
Theorem extend_chain_merges C cls Ds w :
  classes w !! C = Some cls ->
  exists Cn clsn w',
    extend_chain C Ds w = (Ok Cn, w') /\
    classes w' !! Cn = Some clsn /\
    Interface clsn = merge_tables (Interface cls) Ds /\
    (forall k, table_lookup k (Interface clsn)
               = merged_lookup k (Interface cls :: Ds)) /\
    (forall D, exists C' cls' w'',
       extend Cn D w' = (Ok C', w'') /\
       classes w'' !! C' = Some cls' /\
       super cls' = Some Cn /\
       Interface cls' = merge_tables (Interface cls) (Ds ++ [D]) /\
       (forall k, table_lookup k (Interface cls')
                  = merged_lookup k (Interface cls :: Ds ++ [D]))).
Proof.
  intros Hcls.
  destruct (extend_chain_ok C cls Ds w Hcls)
    as (Cn & clsn & w' & Hrun & Hn & Htab & Hlook & _ & _).
  exists Cn, clsn, w'. split_and!; try done.
  intros D. rewrite (extend_ok _ _ _ _ Hn).
  eexists _, _, _. split; [done|]. simpl. split.
  { by rewrite list_lookup_middle. }
  split; [done|]. simpl.
  assert (Object_assign (Object_assign [] (Interface clsn)) D
          = merge_tables (Interface cls) (Ds ++ [D])) as Hmerge.
  { unfold merge_tables. rewrite fold_left_app. simpl.
    by rewrite Htab. }
  split; [exact Hmerge|].
  intros k. rewrite table_lookup_extend, Hlook.
  by rewrite <- (merged_lookup_snoc k (Interface cls :: Ds) D).
Qed.

Lemma extend_chain_merges_witness :
  classes (initial_world 0) !! SyntheticEventClass
    = Some (mkClass None EventInterface []) /\
  exists Cn clsn w',
    extend_chain SyntheticEventClass [UIEventInterface; MouseEventInterface]
      (initial_world 0) = (Ok Cn, w') /\
    classes w' !! Cn = Some clsn /\
    table_lookup "view" (Interface clsn) = Some None /\
    table_lookup "currentTarget" (Interface clsn) = Some (Some currentTarget_rule) /\
    is_Some (table_lookup "detail" (Interface clsn) ≫= id).
Proof.
  split; [reflexivity|].
  destruct (extend_chain_merges SyntheticEventClass _
              [UIEventInterface; MouseEventInterface] (initial_world 0)
              eq_refl)
    as (Cn & clsn & w' & Hrun & Hn & _ & Hlook & _).
  exists Cn, clsn, w'. split; [exact Hrun|]. split; [exact Hn|].
  rewrite !Hlook. split_and!; [reflexivity|reflexivity|].
  simpl. eauto.
Defined.

(** ** Reuse of a pooled instance *)

Lemma field_value_pure k r a n w :
  nativeEvent a = VObj n ->
  field_value k r (nativeEvent a) (nativeEventTarget a) w
  = (rule_value k r a (own_props (heap w) n) (now w), w).
Proof.
  intros Hn. unfold field_value, rule_value. rewrite Hn.
  destruct r as [f|]; [done|]. by case_decide.
Qed.

Lemma populate_spec this a n entries w :
  nativeEvent a = VObj n -> n <> this ->
  (forall k f, (k, Some f) ∈ entries ->
     forall fields t, is_Ok (f (VObj n) fields t) = true) ->
  exists w',
    populate this (nativeEvent a) (nativeEventTarget a) entries w
      = (Ok tt, w') /\
    only_props_of this w w' /\
    (forall k r, table_lookup k entries = Some r ->
       exists v, rule_value k r a (own_props (heap w) n) (now w) = Ok v /\
                 own_props (heap w') this !! k = Some v) /\
    (forall k, table_lookup k entries = None ->
       own_props (heap w') this !! k = own_props (heap w) this !! k).
Proof.
  intros Hn Hneq. revert w.
  induction entries as [|[k0 r0] rest IH]; intros w Htot.
  - exists w. split_and!; [done|apply only_props_of_refl|done|done].
  - simpl. unfold bind. rewrite (field_value_pure _ _ _ _ _ Hn).
    assert (exists v0, rule_value k0 r0 a (own_props (heap w) n) (now w)
                       = Ok v0) as [v0 Hv0].
    { unfold rule_value. destruct r0 as [f|].
      - rewrite Hn.
        pose proof (Htot k0 f (list_elem_of_here _ _)
                         (own_props (heap w) n) (now w)) as Hf.
        destruct (f (VObj n) (own_props (heap w) n) (now w)); [eauto|done].
      - case_decide; eauto. }
    rewrite Hv0. simpl.
    set (w1 := with_heap (write_own (heap w) this k0 v0) w).
    destruct (IH w1) as (w' & Hrun & Hframe & Hsome & Hnone).
    { intros k f Hin. apply (Htot k f). by right. }
    assert (own_props (heap w1) n = own_props (heap w) n) as Hfields
      by (simpl; by apply own_props_write_other).
    exists w'. split; [exact Hrun|]. split.
    { eapply only_props_of_trans; [apply only_props_of_write|exact Hframe]. }
    split.
    + intros k r Hk.
      destruct (table_lookup k rest) as [r'|] eqn:Hrest.
      * injection Hk as <-. destruct (Hsome k r' Hrest) as (v & Hv & Hlook).
        exists v. split; [|done]. by rewrite <- Hfields.
      * case_decide as Hkk; [|discriminate Hk]. injection Hk as <-.
        subst k0. exists v0. split; [done|].
        rewrite (Hnone k Hrest). simpl.
        by rewrite own_props_write_same, lookup_insert_eq.
    + intros k Hk.
      destruct (table_lookup k rest) as [r'|] eqn:Hrest; [discriminate Hk|].
      case_decide as Hkk; [discriminate Hk|].
      rewrite (Hnone k Hrest). simpl.
      by rewrite own_props_write_same, lookup_insert_ne.
Qed.

Lemma SyntheticEvent_spec this a n w :
  nativeEvent a = VObj n -> n <> this ->
  (forall k f, (k, Some f) ∈ Interface_of w this ->
     forall fields t, is_Ok (f (VObj n) fields t) = true) ->
  (SyntheticEvent this a w).1 = Ok (VObj this) /\
  forall k r, table_lookup k (Interface_of w this) = Some r ->
    exists v,
      constructed_field k r a (own_props (heap w) n) (now w) = Ok v /\
      own_props (heap (SyntheticEvent this a w).2) this !! k = Some v.
Proof.
  intros Hn Hneq Htot. rewrite SyntheticEvent_unfold.
  unfold populate_fields, bind, set_this. simpl.
  match goal with |- context [populate _ _ _ _ ?w0] => set (w3 := w0) end.
  assert (Interface_of w3 this = Interface_of w this) as HI.
  { apply Interface_of_eq; [done|]. simpl. by rewrite !proto_of_write. }
  assert (own_props (heap w3) n = own_props (heap w) n) as Hfields.
  { simpl. by rewrite !own_props_write_other. }
  rewrite HI.
  destruct (populate_spec this a n (Interface_of w this) w3 Hn Hneq Htot)
    as (w4 & Hrun & Hframe & Hsome & _).
  rewrite Hrun. rewrite init_predicates_ok by (by rewrite Hn). simpl.
  split; [done|]. intros k r Hk.
  destruct Hframe as (_ & Hnow & _ & _ & Hother & _).
  assert (own_props (heap w4) n = own_props (heap w) n) as Hfields4
    by (rewrite Hother by done; exact Hfields).
  unfold constructed_field.
  destruct (decide (k = "isPropagationStopped")) as [->|Hk1].
  { eexists. split; [done|]. by rewrite own_lookup_write, decide_True. }
  destruct (decide (k = "isDefaultPrevented")) as [->|Hk2].
  { eexists. split; [done|].
    rewrite own_lookup_write, decide_False by (intros [_ ?]; congruence).
    rewrite own_lookup_write, decide_True by done.
    unfold native_field, native_fields. rewrite Hn, Hfields4. done. }
  destruct (Hsome k r Hk) as (v & Hv & Hlook).
  exists v. split.
  - by rewrite <- Hfields.
  - rewrite own_lookup_write, decide_False by (intros [_ ?]; congruence).
    by rewrite own_lookup_write, decide_False by (intros [_ ?]; congruence).
Qed.

Lemma tables_from_eq w w' : classes w' = classes w -> tables_from w w'.
Proof. intros Hc C cls' H. rewrite Hc in H. eauto. Qed.

Lemma tables_from_trans w1 w2 w3 :
  tables_from w1 w2 -> tables_from w2 w3 -> tables_from w1 w3.
Proof.
  intros H12 H23 C cls3 H3. destruct (H23 _ _ H3) as (cls2 & H2 & E2).
  destruct (H12 _ _ H2) as (cls1 & H1 & E1). exists cls1.
  split; [done|congruence].
Qed.

Lemma tables_from_set_pool C pool w : tables_from w (set_pool C pool w).
Proof.
  intros D cls' H. destruct (set_pool_lookup _ _ _ _ _ H) as (cls & ? & ? & _).
  eauto.
Qed.

Lemma normalizers_total_from w w' :
  tables_from w w' -> normalizers_total w -> normalizers_total w'.
Proof.
  intros Hfrom Htot C cls' k f Hcls Hin.
  destruct (Hfrom _ _ Hcls) as (cls & Hc & HI). rewrite HI in Hin.
  by eapply Htot.
Qed.

Lemma getPooled_tables C a w : tables_from w (getPooled C a w).2.
Proof.
  unfold getPooled. destruct (classes w !! C) as [cls|]; [|by apply tables_from_eq].
  destruct (eventPool cls) as [|instance rest].
  - apply tables_from_eq, new_event_classes.
  - eapply tables_from_trans; [apply (tables_from_set_pool C rest)|].
    apply tables_from_eq.
    by destruct (SyntheticEvent_frame instance a (set_pool C rest w))
      as [-> _].
Qed.

Lemma release_tables C v w : tables_from w (release C v w).2.
Proof.
  unfold release. destruct (classes w !! C); [|by apply tables_from_eq].
  destruct v; try (by apply tables_from_eq).
  destruct (instanceof _ _ _); [|by apply tables_from_eq].
  assert (tables_from w (destructor l w)) as Hd.
  { apply tables_from_eq. by destruct (destructor_frame l w) as [-> _]. }
  case_decide; simpl; [|done].
  eapply tables_from_trans; [exact Hd|apply tables_from_set_pool].
Qed.

Lemma getPooled_leaves_room C a w :
  pools_bounded w -> is_Ok (getPooled C a w).1 = true ->
  length (pool_of (getPooled C a w).2 C) < EVENT_POOL_SIZE.
Proof.
  intros Hb Hok. unfold getPooled in *.
  destruct (classes w !! C) as [cls|] eqn:Hcls; [|discriminate Hok].
  pose proof (Hb C) as HC. unfold pool_of in HC. rewrite Hcls in HC.
  destruct (eventPool cls) as [|instance rest] eqn:Hpool.
  - rewrite (pool_of_eq w) by apply new_event_classes.
    unfold pool_of. rewrite Hcls, Hpool. unfold EVENT_POOL_SIZE. simpl. lia.
  - rewrite (pool_of_eq (set_pool C rest w)).
    + rewrite pool_of_set_pool_same by (by eapply lookup_lt_Some).
      simpl in HC. lia.
    + by destruct (SyntheticEvent_frame instance a (set_pool C rest w))
        as [-> _].
Qed.




End EventsFacts.

(** * More on the batching coordinator *)

Module BatchingMore.
Import Batching BatchingFacts.

Section CoordinatorMore.

Context {X : Type}.
Variable needsStateRestore : X -> bool.
Variable restoreStateIfNeeded : X -> X.

Local Abbreviation run := (run needsStateRestore restoreStateIfNeeded).
Local Abbreviation batchedUpdates :=
  (batchedUpdates needsStateRestore restoreStateIfNeeded).
Local Abbreviation finally_block :=
  (finally_block needsStateRestore restoreStateIfNeeded).
Local Abbreviation restoration_check :=
  (restoration_check needsStateRestore).

Lemma run_strategy_flag (fn : value -> value -> @M X outcome) st :
  (forall a b s, isBatching (fn a b s).2 = isBatching s) ->
  forall s, isBatching (run_strategy fn st s).2 = isBatching s.
Proof.
  intros Hfn. induction st as [v|e|tag k IH|f k IH|a b onR IHr onT IHt];
    intros s; simpl; try done.
  - by rewrite IH.
  - by rewrite IH.
  - pose proof (Hfn a b s) as H.
    destruct (fn a b s) as [[v|e] s']; simpl in H.
    + by rewrite IHr.
    + by rewrite IHt.
Qed.

Lemma batchedUpdates_flag (fn : value -> @M X outcome) bookkeeping :
  (forall v s, isBatching (fn v s).2 = isBatching s) ->
  forall s, isBatching (batchedUpdates fn bookkeeping s).2 = isBatching s.
Proof.
  intros Hfn s. unfold Batching.batchedUpdates.
  destruct (isBatching s) eqn:Hs.
  - by rewrite Hfn.
  - destruct (run_strategy _ _ _) as [o s2]. simpl.
    apply finally_block_isBatching.
Qed.

(** X1. Whatever the calling code does (batches nested to any depth,
    functions that throw, strategies swapped on the way), [isBatching] has on
    exit the value it had on entry: a batch that fails does not leave the
    coordinator stuck in the batching state. *)
Theorem run_leaves_isBatching_as_found (c : code) (s : state) :
  isBatching (run c s).2 = isBatching s.
Proof.
  revert s.
  induction c as [v|e|tag k IH|f k IH|fn IHfn bk onR IHr onT IHt
                  |fn IHfn a b onR IHr onT IHt|k IH|bi ii fi k IH];
    intros s; simpl; try done.
  - by rewrite IH.
  - by rewrite IH.
  - pose proof (batchedUpdates_flag (fun v => run (fn v)) bk
                  (fun v s0 => IHfn v s0) s) as H.
    destruct (batchedUpdates _ bk s) as [[v|e] s']; simpl in H.
    + by rewrite IHr.
    + by rewrite IHt.
  - unfold interactiveUpdates.
    pose proof (run_strategy_flag (fun x y => run (fn x y))
                  (_interactiveUpdatesImpl s a b)
                  (fun x y s0 => IHfn x y s0) s) as H.
    destruct (run_strategy _ _ s) as [[v|e] s']; simpl in H.
    + by rewrite IHr.
    + by rewrite IHt.
  - by rewrite IH.
  - by rewrite IH.
Qed.

(** [m] only appends to the log, and what it appends passes
    [check_when_idle]. *)
Lemma appends_idle_checks_refl (s : @state X) :
  exists added, log s = log s ++ added /\
                Forall (fun e => check_when_idle e = true) added.
Proof. exists []. by rewrite app_nil_r. Qed.

Lemma appends_idle_checks_trans (s1 s2 s3 : @state X) :
  (exists added, log s2 = log s1 ++ added /\
                 Forall (fun e => check_when_idle e = true) added) ->
  (exists added, log s3 = log s2 ++ added /\
                 Forall (fun e => check_when_idle e = true) added) ->
  exists added, log s3 = log s1 ++ added /\
                Forall (fun e => check_when_idle e = true) added.
Proof.
  intros (b1 & H1 & F1) (b2 & H2 & F2). exists (b1 ++ b2). split.
  - by rewrite H2, H1, app_assoc.
  - by apply Forall_app.
Qed.

Lemma run_strategy_idle_checks (fn : value -> value -> @M X outcome) st :
  (forall a b s, exists added, log (fn a b s).2 = log s ++ added /\
                   Forall (fun e => check_when_idle e = true) added) ->
  forall s, exists added, log (run_strategy fn st s).2 = log s ++ added /\
              Forall (fun e => check_when_idle e = true) added.
Proof.
  intros Hfn. induction st as [v|e|tag k IH|f k IH|a b onR IHr onT IHt];
    intros s; simpl.
  - apply appends_idle_checks_refl.
  - apply appends_idle_checks_refl.
  - eapply appends_idle_checks_trans; [|apply IH].
    exists [EvWork tag]. split; [done|]. by constructor.
  - eapply appends_idle_checks_trans; [|apply IH].
    exists []. simpl. by rewrite app_nil_r.
  - pose proof (Hfn a b s) as H.
    destruct (fn a b s) as [[v|e] s']; simpl in H.
    + eapply appends_idle_checks_trans; [exact H|apply IHr].
    + eapply appends_idle_checks_trans; [exact H|apply IHt].
Qed.

Lemma finally_block_idle_checks s :
  exists added, log (finally_block s) = log s ++ added /\
                Forall (fun e => check_when_idle e = true) added.
Proof.
  exists (restoration_check (controlled s)). split.
  - apply finally_block_log.
  - unfold Batching.restoration_check.
    destruct (needsStateRestore (controlled s)); repeat constructor.
Qed.

Lemma batchedUpdates_idle_checks (fn : value -> @M X outcome) bookkeeping :
  (forall v, quiet (fn v)) ->
  (forall v s, exists added, log (fn v s).2 = log s ++ added /\
                 Forall (fun e => check_when_idle e = true) added) ->
  forall s, exists added,
    log (batchedUpdates fn bookkeeping s).2 = log s ++ added /\
    Forall (fun e => check_when_idle e = true) added.
Proof.
  intros Hq Hfn s. unfold Batching.batchedUpdates.
  destruct (isBatching s) eqn:Hs; [apply Hfn|].
  pose proof (run_strategy_idle_checks (fun a _ => fn a)
                (_batchedUpdatesImpl (set_isBatching true s) bookkeeping)
                (fun a _ s0 => Hfn a s0) (set_isBatching true s)) as H.
  destruct (run_strategy _ _ _) as [o s2]. simpl in *.
  eapply appends_idle_checks_trans; [exact H|].
  apply finally_block_idle_checks.
Qed.

(** X2. Over any run of calling code, from any state: the collaborator is
    queried ([needsStateRestore]) and asked to restore
    ([restoreStateIfNeeded]) only at moments when [isBatching] is false;
    neither ever happens while a batch is open. *)
Theorem restoration_only_when_idle (c : code) (s : state) :
  exists added,
    log (run c s).2 = log s ++ added /\
    Forall (fun e => check_when_idle e = true) added.
Proof.
  revert s.
  induction c as [v|e|tag k IH|f k IH|fn IHfn bk onR IHr onT IHt
                  |fn IHfn a b onR IHr onT IHt|k IH|bi ii fi k IH];
    intros s; simpl.
  - apply appends_idle_checks_refl.
  - apply appends_idle_checks_refl.
  - eapply appends_idle_checks_trans; [|apply IH].
    exists [EvWork tag]. split; [done|]. by constructor.
  - eapply appends_idle_checks_trans; [|apply IH].
    exists []. simpl. by rewrite app_nil_r.
  - pose proof (batchedUpdates_idle_checks (fun v => run (fn v)) bk
                  (fun v => run_quiet needsStateRestore restoreStateIfNeeded
                              (fn v))
                  (fun v s0 => IHfn v s0) s) as H.
    destruct (batchedUpdates _ bk s) as [[v|e] s']; simpl in H.
    + eapply appends_idle_checks_trans; [exact H|apply IHr].
    + eapply appends_idle_checks_trans; [exact H|apply IHt].
  - unfold interactiveUpdates.
    pose proof (run_strategy_idle_checks (fun x y => run (fn x y))
                  (_interactiveUpdatesImpl s a b)
                  (fun x y s0 => IHfn x y s0) s) as H.
    destruct (run_strategy _ _ s) as [[v|e] s']; simpl in H.
    + eapply appends_idle_checks_trans; [exact H|apply IHr].
    + eapply appends_idle_checks_trans; [exact H|apply IHt].
  - eapply appends_idle_checks_trans; [|apply IH].
    exists [EvFlushInteractive (isBatching s)]. split; [done|].
    by constructor.
  - eapply appends_idle_checks_trans; [|apply IH].
    exists []. simpl. by rewrite app_nil_r.
Qed.



End CoordinatorMore.


End BatchingMore.

(** * More on synthetic events *)

Module EventsMore.
Import Events EventsFacts.

Local Open Scope string_scope.
Local Open Scope list_scope.

Ltac not_in_list :=
  let H := fresh in
  intros H; repeat (apply elem_of_cons in H as [H|H]; [discriminate H|]);
  by apply elem_of_nil in H.

(** ** What the constructor writes *)

Lemma populate_keys this ne net entries w k :
  k ∉ entries.*1 ->
  own_props (heap (populate this ne net entries w).2) this !! k
  = own_props (heap w) this !! k.
Proof.
  revert w. induction entries as [|[k0 r0] rest IH]; intros w Hk; [done|].
  simpl. unfold bind.
  pose proof (field_value_world k0 r0 ne net w) as Hw.
  destruct (field_value k0 r0 ne net w) as [[v|e] w1]; simpl in Hw; subst w1;
    [|done].
  simpl. rewrite IH.
  - simpl. rewrite own_lookup_write, decide_False; [done|].
    intros [_ ->]. apply Hk. by left.
  - intros Hin. apply Hk. by right.
Qed.

Lemma init_predicates_keys this ne w k :
  k <> "isDefaultPrevented" -> k <> "isPropagationStopped" ->
  own_props (heap (init_predicates this ne w).2) this !! k
  = own_props (heap w) this !! k.
Proof.
  intros H1 H2. destruct (not_nullish ne) eqn:Hne.
  - rewrite init_predicates_ok by done. simpl.
    rewrite own_lookup_write, decide_False by (intros [_ ?]; congruence).
    by rewrite own_lookup_write, decide_False by (intros [_ ?]; congruence).
  - unfold init_predicates, bind. by destruct ne.
Qed.

Lemma populate_fields_unfold this a w :
  populate_fields this a w
  = populate this (nativeEvent a) (nativeEventTarget a) (Interface_of w this)
      (with_heap
         (write_own
            (write_own
               (write_own (heap w) this "dispatchConfig" (dispatchConfig a))
               this "_targetInst" (targetInst a))
            this "nativeEvent" (nativeEvent a)) w).
Proof.
  unfold populate_fields, bind, set_this. simpl.
  rewrite (Interface_of_eq _ w); [done|done|].
  simpl. by rewrite !proto_of_write.
Qed.

Lemma SyntheticEvent_world this a w :
  (SyntheticEvent this a w).2
  = match populate_fields this a w with
    | (Ok _, w1) => (init_predicates this (nativeEvent a) w1).2
    | (Throw _, w1) => w1
    end.
Proof.
  rewrite SyntheticEvent_unfold.
  destruct (populate_fields this a w) as [[[]|e] w1]; [|done].
  by destruct (init_predicates this (nativeEvent a) w1) as [[[]|e] w2].
Qed.

Lemma SyntheticEvent_returns_this this a w :
  (SyntheticEvent this a w).1 = Ok (VObj this) \/
  is_Ok (SyntheticEvent this a w).1 = false.
Proof.
  rewrite SyntheticEvent_unfold.
  destruct (populate_fields this a w) as [[[]|e] w1]; [|by right].
  destruct (init_predicates this (nativeEvent a) w1) as [[[]|e] w2];
    [by left|by right].
Qed.

Lemma SyntheticEvent_other_keys this a w k :
  k ∉ (Interface_of w this).*1 -> k ∉ constructor_fields ->
  own_props (heap (SyntheticEvent this a w).2) this !! k
  = own_props (heap w) this !! k.
Proof.
  intros Htab Hfix. rewrite SyntheticEvent_world.
  assert (own_props (heap (populate_fields this a w).2) this !! k
          = own_props (heap w) this !! k) as Hpop.
  { rewrite populate_fields_unfold, populate_keys by done. simpl.
    repeat (rewrite own_lookup_write, decide_False;
            [|intros [_ <-]; apply Hfix; unfold constructor_fields;
              repeat first [by left | right]]).
    done. }
  destruct (populate_fields this a w) as [[[]|e] w1]; simpl in Hpop;
    [|exact Hpop].
  rewrite init_predicates_keys; [exact Hpop| |].
  - intros ->. apply Hfix. unfold constructor_fields.
    repeat first [by left | right].
  - intros ->. apply Hfix. unfold constructor_fields.
    repeat first [by left | right].
Qed.

(** X4. The constructor, whether it returns or throws, writes nothing but own
    properties of [this], and of those only the fields of the table and its
    five fixed fields: classes and pools, the clock, every other object (the
    native event included) and every other property of [this] are as before,
    and no method of the native event is called. *)
Theorem SyntheticEvent_writes_only_its_fields this a w :
  let w' := (SyntheticEvent this a w).2 in
  classes w' = classes w /\
  now w' = now w /\
  native_calls w' = native_calls w /\
  (forall l, proto_of (heap w') l = proto_of (heap w) l) /\
  (forall l, l <> this -> own_props (heap w') l = own_props (heap w) l) /\
  (forall k, k ∉ (Interface_of w this).*1 -> k ∉ constructor_fields ->
     own_props (heap w') this !! k = own_props (heap w) this !! k).
Proof.
  intros w'.
  destruct (SyntheticEvent_frame this a w) as (A1 & A2 & A3 & A4 & A5 & _).
  split_and!; try done.
  intros k Htab Hfix. by apply SyntheticEvent_other_keys.
Qed.

Lemma SyntheticEvent_writes_only_its_fields_witness :
  native_calls world_acquired = [] /\
  own_props (heap world_acquired) 0 = own_props (heap world_with_native) 0.
Proof.
  pose proof (SyntheticEvent_writes_only_its_fields 1 click_args
                (with_heap (<[1 := mkObj (Some SyntheticEventClass) ∅]>
                              (heap world_with_native)) world_with_native))
    as (_ & _ & Hcalls & _ & Hother & _).
  split; [exact Hcalls|]. exact (Hother 0 ltac:(lia)).
Defined.

(** X5. Whether the constructor returns or throws, [dispatchConfig],
    [_targetInst] and [nativeEvent] hold the arguments of the call, each
    unless the table declares a field of that name (which is then assigned
    over it). *)
Theorem SyntheticEvent_fixed_fields this a w :
  let w' := (SyntheticEvent this a w).2 in
  ("dispatchConfig" ∉ (Interface_of w this).*1 ->
     read_own (heap w') this "dispatchConfig" = dispatchConfig a) /\
  ("_targetInst" ∉ (Interface_of w this).*1 ->
     read_own (heap w') this "_targetInst" = targetInst a) /\
  ("nativeEvent" ∉ (Interface_of w this).*1 ->
     read_own (heap w') this "nativeEvent" = nativeEvent a).
Proof.
  intros w'.
  assert (forall k, k ∉ (Interface_of w this).*1 ->
            k <> "isDefaultPrevented" -> k <> "isPropagationStopped" ->
            own_props (heap w') this !! k
            = own_props
                (write_own
                   (write_own
                      (write_own (heap w) this "dispatchConfig"
                         (dispatchConfig a))
                      this "_targetInst" (targetInst a))
                   this "nativeEvent" (nativeEvent a)) this !! k) as H.
  { intros k Hk H1 H2. subst w'. rewrite SyntheticEvent_world.
    assert (own_props (heap (populate_fields this a w).2) this !! k
            = own_props
                (write_own
                   (write_own
                      (write_own (heap w) this "dispatchConfig"
                         (dispatchConfig a))
                      this "_targetInst" (targetInst a))
                   this "nativeEvent" (nativeEvent a)) this !! k) as Hpop
      by (by rewrite populate_fields_unfold, populate_keys).
    destruct (populate_fields this a w) as [[[]|e] w1]; simpl in Hpop;
      [|exact Hpop].
    by rewrite init_predicates_keys. }
  unfold read_own. split_and!; intros Hk; rewrite H by done.
  - rewrite !own_lookup_write.
    rewrite decide_False by (by intros [_ ?]).
    rewrite decide_False by (by intros [_ ?]).
    by rewrite decide_True.
  - rewrite !own_lookup_write.
    rewrite decide_False by (by intros [_ ?]).
    by rewrite decide_True.
  - rewrite !own_lookup_write. by rewrite decide_True.
Qed.

Lemma SyntheticEvent_fixed_fields_witness :
  ("nativeEvent" ∉ (Interface_of world_acquired 1).*1) /\
  read_own (heap (SyntheticEvent 1 keydown_args world_acquired).2) 1
           "nativeEvent" = VObj 0.
Proof.
  assert ("nativeEvent" ∉ (Interface_of world_acquired 1).*1) as Hk
    by not_in_list.
  split; [exact Hk|].
  exact (proj2 (proj2 (SyntheticEvent_fixed_fields 1 keydown_args
                         world_acquired)) Hk).
Defined.

(** ** The fields of the base interface *)

Lemma constructed_own this a n w k r v :
  nativeEvent a = VObj n -> n <> this ->
  (forall k f, (k, Some f) ∈ Interface_of w this ->
     forall fields t, is_Ok (f (VObj n) fields t) = true) ->
  table_lookup k (Interface_of w this) = Some r ->
  constructed_field k r a (own_props (heap w) n) (now w) = Ok v ->
  read_own (heap (SyntheticEvent this a w).2) this k = v.
Proof.
  intros Hn Hneq Htot Hk Hv.
  destruct (SyntheticEvent_spec this a n w Hn Hneq Htot) as [_ H].
  destruct (H k r Hk) as (v' & Hv' & Hlook).
  unfold read_own. rewrite Hlook. simpl. congruence.
Qed.

(** X6. An instance whose class has the base table [EventInterface], built
    for a native event that is another object: construction returns, [type],
    [eventPhase], [bubbles], [cancelable], [defaultPrevented] and [isTrusted]
    are copied from the native event ([undefined] when it lacks them),
    [target] is the [nativeEventTarget] argument and not the native event's
    [target], [currentTarget] is null, and [timeStamp] is the native one when
    truthy and the clock otherwise. *)
Theorem SyntheticEvent_base_fields this a n w :
  Interface_of w this = EventInterface ->
  nativeEvent a = VObj n -> n <> this ->
  let w' := (SyntheticEvent this a w).2 in
  (SyntheticEvent this a w).1 = Ok (VObj this) /\
  read_own (heap w') this "type" = read_own (heap w) n "type" /\
  read_own (heap w') this "target" = nativeEventTarget a /\
  read_own (heap w') this "currentTarget" = VNull /\
  read_own (heap w') this "eventPhase" = read_own (heap w) n "eventPhase" /\
  read_own (heap w') this "bubbles" = read_own (heap w) n "bubbles" /\
  read_own (heap w') this "cancelable" = read_own (heap w) n "cancelable" /\
  (read_own (heap w') this "timeStamp"
   = if truthy (read_own (heap w) n "timeStamp")
     then read_own (heap w) n "timeStamp" else VNum (now w)) /\
  (read_own (heap w') this "defaultPrevented"
   = read_own (heap w) n "defaultPrevented") /\
  read_own (heap w') this "isTrusted" = read_own (heap w) n "isTrusted".
Proof.
  intros HI Hn Hneq w'.
  assert (forall k f, (k, Some f) ∈ Interface_of w this ->
            forall fields t, is_Ok (f (VObj n) fields t) = true) as Htot
    by (rewrite HI; intros k f Hin; by eapply EventInterface_total).
  split; [apply (SyntheticEvent_spec this a n w Hn Hneq Htot)|].
  split_and!;
    (eapply (constructed_own this a n w _ _ _ Hn Hneq Htot);
     [rewrite HI; reflexivity|]).
  - done.
  - done.
  - done.
  - done.
  - done.
  - done.
  - unfold constructed_field, rule_value, timeStamp_rule, read_own. simpl.
    rewrite Hn. by destruct (truthy _).
  - done.
  - done.
Qed.

Lemma SyntheticEvent_base_fields_witness :
  Interface_of world_acquired 1 = EventInterface /\
  read_own (heap (SyntheticEvent 1 keydown_args world_acquired).2) 1 "target"
    = VStr "field" /\
  read_own (heap (SyntheticEvent 1 keydown_args world_acquired).2) 1
           "timeStamp" = VNum 1000.
Proof.
  assert (Interface_of world_acquired 1 = EventInterface) as HI
    by reflexivity.
  split; [exact HI|].
  pose proof (SyntheticEvent_base_fields 1 keydown_args 0 world_acquired
                HI eq_refl ltac:(lia))
    as (_ & _ & Htarget & _ & _ & _ & _ & Htime & _).
  split; [exact Htarget|]. rewrite Htime. by vm_compute.
Defined.

(** ** Allocation and the pool *)

Lemma inherits_self fuel cs C : inherits fuel cs C C = true.
Proof. destruct fuel; simpl; by rewrite decide_True. Qed.

Lemma new_event_fresh_loc C a w e :
  (new_event C a w).1 = Ok (VObj e) -> e ∉ dom (heap w).
Proof.
  unfold new_event. intros Hrun.
  destruct (classes w !! C) as [cls|]; [|discriminate Hrun].
  match type of Hrun with (SyntheticEvent ?t _ ?w1).1 = _ =>
    destruct (SyntheticEvent_returns_this t a w1) as [H|H] end;
    rewrite Hrun in H; [|discriminate H].
  injection H as ->. apply is_fresh.
Qed.

(** X7. [new C(...)] on an existing class, whenever it returns: the instance
    is a location that was not allocated before, its prototype is that of
    [C], it is an instance of [C], every object that existed is unchanged,
    and the classes with their pools are untouched. *)
Theorem new_event_is_fresh C a w e :
  (new_event C a w).1 = Ok (VObj e) ->
  let w' := (new_event C a w).2 in
  (e ∉ dom (heap w)) /\
  proto_of (heap w') e = Some C /\
  instanceof w' (VObj e) C = true /\
  classes w' = classes w /\
  (forall l, l ∈ dom (heap w) ->
     own_props (heap w') l = own_props (heap w) l /\
     proto_of (heap w') l = proto_of (heap w) l).
Proof.
  intros Hrun w'. subst w'. unfold new_event in *.
  destruct (classes w !! C) as [cls|] eqn:Hcls; [|discriminate Hrun].
  set (this := fresh (dom (heap w))) in *.
  set (w1 := with_heap (<[this := mkObj (Some C) ∅]> (heap w)) w) in *.
  assert (e = this) as ->.
  { destruct (SyntheticEvent_returns_this this a w1) as [H|H];
      rewrite Hrun in H; [by injection H|discriminate H]. }
  assert (this ∉ dom (heap w)) as Hfresh by apply is_fresh.
  destruct (SyntheticEvent_frame this a w1) as (A1 & _ & _ & A4 & A5 & _).
  assert (proto_of (heap (SyntheticEvent this a w1).2) this = Some C) as Hp.
  { rewrite A4. unfold proto_of, w1. simpl. by rewrite lookup_insert_eq. }
  split_and!; try done.
  - unfold instanceof. rewrite Hp. apply inherits_self.
  - intros l Hl. assert (l <> this) as Hne by (intros ->; done).
    split.
    + rewrite A5 by done. unfold own_props, w1. simpl.
      by rewrite lookup_insert_ne.
    + rewrite A4. unfold proto_of, w1. simpl. by rewrite lookup_insert_ne.
Qed.

Lemma new_event_is_fresh_witness :
  (new_event SyntheticEventClass click_args world_with_native).1
    = Ok (VObj 1) /\
  (1 ∉ dom (heap world_with_native)) /\
  own_props (heap (new_event SyntheticEventClass click_args
                     world_with_native).2) 0
  = own_props (heap world_with_native) 0.
Proof.
  assert ((new_event SyntheticEventClass click_args world_with_native).1
          = Ok (VObj 1)) as Hrun by (by vm_compute).
  split; [exact Hrun|].
  destruct (new_event_is_fresh _ _ _ _ Hrun) as (Hfresh & _ & _ & _ & Hold).
  split; [exact Hfresh|]. apply Hold.
  apply elem_of_dom. eexists. reflexivity.
Defined.

(** X8. [getPooled] on an existing class takes the head of its pool, that is
    the instance pushed last: the call returns that instance or throws, and in
    both cases the instance has left the pool (an acquire whose construction
    throws loses the pooled instance).  With an empty pool the pool stays
    empty.  The pools of the other classes are never touched. *)
Theorem getPooled_takes_head C a w cls :
  classes w !! C = Some cls ->
  let r := getPooled C a w in
  (forall i rest, eventPool cls = i :: rest ->
     (r.1 = Ok (VObj i) \/ is_Ok r.1 = false) /\ pool_of r.2 C = rest) /\
  (eventPool cls = [] -> pool_of r.2 C = []) /\
  (forall D, D <> C -> pool_of r.2 D = pool_of w D).
Proof.
  intros Hcls r. subst r. unfold getPooled. rewrite Hcls.
  assert (C < length (classes w)) as HC by (by eapply lookup_lt_Some).
  destruct (eventPool cls) as [|i rest] eqn:Hpool.
  - split_and!; [done| |].
    + intros _. rewrite (pool_of_eq w) by apply new_event_classes.
      unfold pool_of. by rewrite Hcls.
    + intros D _. apply pool_of_eq, new_event_classes.
  - assert (classes (SyntheticEvent i a (set_pool C rest w)).2
            = classes (set_pool C rest w)) as Hc
      by (by destruct (SyntheticEvent_frame i a (set_pool C rest w))
            as [-> _]).
    split_and!; [|done|].
    + intros i' rest' [= <- <-]. split.
      * apply SyntheticEvent_returns_this.
      * rewrite (pool_of_eq _ _ _ Hc). by apply pool_of_set_pool_same.
    + intros D HD. rewrite (pool_of_eq _ _ _ Hc).
      by apply pool_of_set_pool_other.
Qed.

Lemma getPooled_takes_head_witness :
  classes world_released !! SyntheticEventClass
    = Some (mkClass None EventInterface [1]) /\
  is_Ok (getPooled SyntheticEventClass null_args world_released).1 = false /\
  pool_of (getPooled SyntheticEventClass null_args world_released).2
          SyntheticEventClass = [].
Proof.
  assert (classes world_released !! SyntheticEventClass
          = Some (mkClass None EventInterface [1])) as Hcls by reflexivity.
  split; [exact Hcls|]. split; [by vm_compute|].
  exact (proj2 (proj1 (getPooled_takes_head _ null_args _ _ Hcls)
                  1 [] eq_refl)).
Defined.

(** X9. Acquire then release is a round trip on a pool that was not empty:
    with pools within capacity, when [getPooled] on [C] returns an instance
    and [release] of it into [C] returns, the pool of [C] is exactly what it
    was before the two calls. *)
Theorem getPooled_release_restores_pool C a w e :
  pools_bounded w -> pool_of w C <> [] ->
  (getPooled C a w).1 = Ok (VObj e) ->
  let w1 := (getPooled C a w).2 in
  (release C (VObj e) w1).1 = Ok tt ->
  pool_of (release C (VObj e) w1).2 C = pool_of w C.
Proof.
  intros Hb Hne Hget w1 Hrel.
  assert (length (pool_of w1 C) < EVENT_POOL_SIZE) as Hroom.
  { apply getPooled_leaves_room; [done|]. by rewrite Hget. }
  assert (release C (VObj e) w1 = (Ok tt, (release C (VObj e) w1).2))
    as Hrel'.
  { destruct (release C (VObj e) w1) as [r w']. simpl in Hrel. by subst r. }
  destruct (release_pools _ _ _ _ Hrel') as (Hpush & _ & _).
  rewrite (Hpush Hroom). unfold pool_of in Hne |- *.
  destruct (classes w !! C) as [cls|] eqn:Hcls; [|done].
  destruct (eventPool cls) as [|i rest] eqn:Hpool; [done|].
  destruct (proj1 (getPooled_takes_head C a w cls Hcls) i rest Hpool)
    as [[Hi|Hi] Hrest].
  - rewrite Hget in Hi. injection Hi as ->.
    fold (pool_of w1 C). unfold w1. by rewrite Hrest.
  - rewrite Hget in Hi. discriminate Hi.
Qed.

Lemma getPooled_release_restores_pool_witness :
  pool_of world_released SyntheticEventClass = [1] /\
  pool_of (release SyntheticEventClass (VObj 1)
             (getPooled SyntheticEventClass keydown_args world_released).2).2
          SyntheticEventClass = [1].
Proof.
  split; [reflexivity|].
  refine (getPooled_release_restores_pool SyntheticEventClass keydown_args
            world_released 1 _ _ _ _).
  - unfold world_released, world_acquired. do 2 apply pools_bounded_step.
    apply pools_bounded_run_ops, pools_bounded_initial.
  - intros H. vm_compute in H. discriminate H.
  - by vm_compute.
  - by vm_compute.
Defined.

(** ** Releasing twice, persistence, and other classes *)

Lemma same_hierarchy_refl cs : same_hierarchy cs cs.
Proof. by split. Qed.

Lemma same_hierarchy_trans cs1 cs2 cs3 :
  same_hierarchy cs1 cs2 -> same_hierarchy cs2 cs3 -> same_hierarchy cs1 cs3.
Proof.
  intros [L1 H1] [L2 H2]. split; [congruence|].
  intros C. by rewrite H2, H1.
Qed.

Lemma same_hierarchy_set_pool C pool w :
  same_hierarchy (classes w) (classes (set_pool C pool w)).
Proof.
  unfold set_pool. simpl. split; [apply length_alter|].
  intros D. destruct (decide (C = D)) as [->|Hne].
  - rewrite list_lookup_alter_eq. by destruct (classes w !! D).
  - by rewrite list_lookup_alter_ne.
Qed.

Lemma same_hierarchy_eq w w' :
  classes w' = classes w -> same_hierarchy (classes w) (classes w').
Proof. intros ->. apply same_hierarchy_refl. Qed.

Lemma same_hierarchy_super cs cs' D :
  same_hierarchy cs cs' -> cs' !! D ≫= super = cs !! D ≫= super.
Proof.
  intros [_ H]. specialize (H D).
  destruct (cs' !! D), (cs !! D); simplify_eq/=; done.
Qed.

Lemma same_hierarchy_is_Some cs cs' D :
  same_hierarchy cs cs' -> is_Some (cs !! D) -> is_Some (cs' !! D).
Proof.
  intros [L _] H. apply lookup_lt_is_Some. rewrite L.
  by apply lookup_lt_is_Some.
Qed.

Lemma inherits_same_hierarchy fuel cs cs' D C :
  same_hierarchy cs cs' -> inherits fuel cs' D C = inherits fuel cs D C.
Proof.
  intros Hs. revert D. induction fuel as [|fuel IH]; intros D; simpl; [done|].
  case_decide; [done|]. rewrite (same_hierarchy_super _ _ _ Hs).
  destruct (cs !! D ≫= super); [apply IH|done].
Qed.

Lemma instanceof_preserved w w' v C :
  (forall l, proto_of (heap w') l = proto_of (heap w) l) ->
  same_hierarchy (classes w) (classes w') ->
  instanceof w' v C = instanceof w v C.
Proof.
  intros Hp Hs. unfold instanceof. destruct v; try done. rewrite Hp.
  destruct (proto_of (heap w) l); [|done].
  destruct Hs as [L H]. rewrite L. by apply inherits_same_hierarchy.
Qed.

Lemma release_ok C v w :
  (release C v w).1 = Ok tt <->
  is_Some (classes w !! C) /\ instanceof w v C = true.
Proof.
  unfold release. destruct (classes w !! C) as [cls|].
  - destruct v as [| | | | |l|]; try (split; [done|by intros [_ ?]]).
    destruct (instanceof w (VObj l) C) eqn:E.
    + split; [eauto|]. intros _. by case_decide.
    + split; [done|by intros [_ ?]].
  - split; [done|]. by intros [[? ?] _].
Qed.

Lemma release_keeps_shape C v w :
  (forall l, proto_of (heap (release C v w).2) l = proto_of (heap w) l) /\
  same_hierarchy (classes w) (classes (release C v w).2).
Proof.
  unfold release.
  destruct (classes w !! C); [|split; [done|apply same_hierarchy_refl]].
  destruct v; try (split; [done|apply same_hierarchy_refl]).
  destruct (instanceof _ _ _); [|split; [done|apply same_hierarchy_refl]].
  destruct (destructor_frame l w) as (Hc & _ & _ & Hp & _).
  case_decide; simpl.
  - split; [exact Hp|]. apply (same_hierarchy_set_pool C _ w).
  - split; [exact Hp|]. apply same_hierarchy_refl.
Qed.

Lemma pool_of_head w C i rest :
  pool_of w C = i :: rest ->
  exists cls, classes w !! C = Some cls /\ eventPool cls = i :: rest.
Proof.
  unfold pool_of. destruct (classes w !! C) as [cls|]; [eauto|done].
Qed.

(** An acquire from a non-empty pool, for a native event that is an object. *)
Lemma getPooled_head_ok C a n w i rest :
  pool_of w C = i :: rest -> nativeEvent a = VObj n -> normalizers_total w ->
  getPooled C a w = SyntheticEvent i a (set_pool C rest w) /\
  (getPooled C a w).1 = Ok (VObj i) /\
  pool_of (getPooled C a w).2 C = rest /\
  normalizers_total (getPooled C a w).2.
Proof.
  intros Hpool Hn Htot.
  destruct (pool_of_head _ _ _ _ Hpool) as (cls & Hcls & Hp).
  assert (getPooled C a w = SyntheticEvent i a (set_pool C rest w)) as E
    by (unfold getPooled; by rewrite Hcls, Hp).
  split; [exact E|]. split_and!.
  - rewrite E. apply (SyntheticEvent_ok i a n _ Hn).
    by apply normalizers_total_Interface_of, normalizers_total_set_pool.
  - exact (proj2 (proj1 (getPooled_takes_head C a w cls Hcls) i rest Hp)).
  - eapply normalizers_total_from; [apply getPooled_tables|done].
Qed.

(** X10. [release] does not look whether the instance is already pooled: when
    a first [release] of an instance returns, a second one returns as well,
    and with room for two the instance is then on the pool twice, so that the
    next two [getPooled] hand out the same instance. *)
Theorem release_twice_pools_twice C e w :
  (release C (VObj e) w).1 = Ok tt ->
  let w1 := (release C (VObj e) w).2 in
  let w2 := (release C (VObj e) w1).2 in
  (release C (VObj e) w1).1 = Ok tt /\
  (length (pool_of w C) + 2 <= EVENT_POOL_SIZE ->
     pool_of w2 C = e :: e :: pool_of w C /\
     forall a2 a3 n2 n3,
       nativeEvent a2 = VObj n2 -> nativeEvent a3 = VObj n3 ->
       normalizers_total w ->
       (getPooled C a2 w2).1 = Ok (VObj e) /\
       (getPooled C a3 (getPooled C a2 w2).2).1 = Ok (VObj e)).
Proof.
  intros Hrel w1 w2.
  assert ((release C (VObj e) w1).1 = Ok tt) as Hrel2.
  { apply release_ok. apply release_ok in Hrel as [Hcls Hinst].
    destruct (release_keeps_shape C (VObj e) w) as [Hp Hs]. split.
    - by eapply same_hierarchy_is_Some.
    - subst w1. by rewrite (instanceof_preserved w _ _ _ Hp Hs). }
  split; [exact Hrel2|]. intros Hroom.
  assert (release C (VObj e) w = (Ok tt, w1)) as E1.
  { subst w1. destruct (release C (VObj e) w) as [r w']. simpl in Hrel.
    by subst r. }
  assert (release C (VObj e) w1 = (Ok tt, w2)) as E2.
  { subst w2. destruct (release C (VObj e) w1) as [r w']. simpl in Hrel2.
    by subst r. }
  destruct (release_pools _ _ _ _ E1) as (Hpush1 & _ & _).
  destruct (release_pools _ _ _ _ E2) as (Hpush2 & _ & _).
  assert (pool_of w1 C = e :: pool_of w C) as Hp1
    by (apply Hpush1; unfold EVENT_POOL_SIZE in *; lia).
  assert (pool_of w2 C = e :: e :: pool_of w C) as Hp2.
  { rewrite Hpush2, Hp1; [done|]. rewrite Hp1. simpl.
    unfold EVENT_POOL_SIZE in *. lia. }
  split; [exact Hp2|]. intros a2 a3 n2 n3 Hn2 Hn3 Htot.
  assert (normalizers_total w2) as Htot2.
  { eapply normalizers_total_from; [|exact Htot].
    eapply tables_from_trans; apply release_tables. }
  destruct (getPooled_head_ok C a2 n2 w2 e _ Hp2 Hn2 Htot2)
    as (_ & Hok2 & Hp3 & Htot3).
  split; [exact Hok2|].
  by destruct (getPooled_head_ok C a3 n3 _ e _ Hp3 Hn3 Htot3)
    as (_ & ? & _).
Qed.

Lemma release_twice_pools_twice_witness :
  (release SyntheticEventClass (VObj 1) world_acquired).1 = Ok tt /\
  pool_of (release SyntheticEventClass (VObj 1) world_released).2
          SyntheticEventClass = [1; 1].
Proof.
  assert ((release SyntheticEventClass (VObj 1) world_acquired).1 = Ok tt)
    as Hrel by (by vm_compute).
  split; [exact Hrel|].
  destruct (release_twice_pools_twice _ _ _ Hrel) as [_ H].
  refine (proj1 (H _)). vm_compute. lia.
Defined.



(** X12. Pools are kept apart by [release] and [getPooled]: releasing an
    instance into the pool of [C] changes no other pool, and a later
    [getPooled] on another class [D], whose pool did not hold the instance,
    never returns it. *)
Theorem release_does_not_feed_other_class C D e w a :
  D <> C -> (release C (VObj e) w).1 = Ok tt -> e ∉ pool_of w D ->
  let w' := (release C (VObj e) w).2 in
  pool_of w' D = pool_of w D /\
  (getPooled D a w').1 <> Ok (VObj e).
Proof.
  intros HD Hrel Hnin w'.
  assert (release C (VObj e) w = (Ok tt, w')) as E.
  { subst w'. destruct (release C (VObj e) w) as [r w0]. simpl in Hrel.
    by subst r. }
  destruct (release_pools _ _ _ _ E) as (_ & _ & Hother).
  specialize (Hother D HD). split; [exact Hother|].
  assert (e ∈ dom (heap w')) as Halloc.
  { apply elem_of_dom. rewrite (release_heap _ _ _ _ E).
    unfold destructor. simpl. apply write_own_is_Some_same. }
  unfold getPooled.
  destruct (classes w' !! D) as [cls|] eqn:Hcls; [|done].
  assert (pool_of w' D = eventPool cls) as Hp
    by (unfold pool_of; by rewrite Hcls).
  destruct (eventPool cls) as [|i rest].
  - intros Hnew. destruct (new_event_fresh_loc D a w' e Hnew). done.
  - intros Hget.
    destruct (SyntheticEvent_returns_this i a (set_pool D rest w'))
      as [H|H]; rewrite Hget in H; [|discriminate H].
    injection H as ->. apply Hnin. rewrite <- Hother, Hp. by left.
Qed.

Lemma release_does_not_feed_other_class_witness :
  (release 1 (VObj 1) world_two_classes).1 = Ok tt /\
  (getPooled SyntheticEventClass keydown_args
     (release 1 (VObj 1) world_two_classes).2).1 <> Ok (VObj 1).
Proof.
  assert ((release 1 (VObj 1) world_two_classes).1 = Ok tt) as Hrel
    by (by vm_compute).
  split; [exact Hrel|].
  refine (proj2 (release_does_not_feed_other_class 1 SyntheticEventClass 1
                   world_two_classes keydown_args _ Hrel _)).
  - discriminate.
  - intros H. vm_compute in H. by apply elem_of_nil in H.
Defined.

(** ** [instanceof] and the chain of classes *)





(** ** [extend] and the tables *)

Lemma elem_of_keys_lookup k (t : table) :
  k ∈ t.*1 <-> is_Some (table_lookup k t).
Proof.
  destruct (table_lookup k t) as [r|] eqn:E.
  - split; [eauto|]. intros _.
    destruct (decide (k ∈ t.*1)) as [|Hnin]; [done|].
    apply table_lookup_None in Hnin. congruence.
  - apply table_lookup_None in E. split; [done|]. by intros [? ?].
Qed.





Lemma extend_table_keys (B D : table) k :
  k ∈ (Object_assign (Object_assign [] B) D).*1 <-> k ∈ B.*1 \/ k ∈ D.*1.
Proof.
  rewrite !elem_of_keys_lookup, table_lookup_extend.
  destruct (table_lookup k D), (table_lookup k B); split; eauto.
  intros [[? ?]|[? ?]]; done.
Qed.



(** ** The classes of every reachable world *)

Lemma getPooled_keeps_shape C a w :
  same_hierarchy (classes w) (classes (getPooled C a w).2).
Proof.
  unfold getPooled.
  destruct (classes w !! C) as [cls|]; [|apply same_hierarchy_refl].
  destruct (eventPool cls) as [|i rest].
  - apply same_hierarchy_eq, new_event_classes.
  - destruct (SyntheticEvent_frame i a (set_pool C rest w)) as [Hc _].
    rewrite Hc. apply same_hierarchy_set_pool.
Qed.

Lemma step_hierarchy o w :
  same_hierarchy (classes w) (classes (step o w)) \/
  exists sup S D,
    classes w !! S = Some sup /\
    classes (step o w)
    = classes w
      ++ [mkClass (Some S) (Object_assign (Object_assign [] (Interface sup)) D)
            []].
Proof.
  destruct o as [C a|C v|C a|S T|this|this|this|f|t]; simpl.
  - left. apply getPooled_keeps_shape.
  - left. apply release_keeps_shape.
  - left. apply same_hierarchy_eq, new_event_classes.
  - destruct (classes w !! S) as [sup|] eqn:Hsup.
    + right. exists sup, S, T. split; [done|].
      by rewrite (extend_ok _ _ _ _ Hsup).
    + left. unfold extend. rewrite Hsup. apply same_hierarchy_refl.
  - left. apply same_hierarchy_eq, preventDefault_classes.
  - left. apply same_hierarchy_eq, stopPropagation_classes.
  - left. apply same_hierarchy_refl.
  - left. apply same_hierarchy_refl.
  - left. apply same_hierarchy_refl.
Qed.

Lemma same_hierarchy_lookup cs cs' C cls' :
  same_hierarchy cs cs' -> cs' !! C = Some cls' ->
  exists cls, cs !! C = Some cls /\ super cls' = super cls /\
              Interface cls' = Interface cls.
Proof.
  intros [_ H] Hc. specialize (H C). rewrite Hc in H.
  destruct (cs !! C) as [cls|]; simplify_eq/=. eauto.
Qed.

(** What every reachable world satisfies. *)
Lemma hierarchy_step_invariant w w' :
  (same_hierarchy (classes w) (classes w') \/
   exists sup S D,
     classes w !! S = Some sup /\
     classes w'
     = classes w
       ++ [mkClass (Some S) (Object_assign (Object_assign [] (Interface sup)) D)
             []]) ->
  tables_wf w /\ supers_older w /\ keeps_base_fields w /\
  (exists pool, classes w !! SyntheticEventClass
                = Some (mkClass None EventInterface pool)) ->
  tables_wf w' /\ supers_older w' /\ keeps_base_fields w' /\
  (exists pool, classes w' !! SyntheticEventClass
                = Some (mkClass None EventInterface pool)).
Proof.
  intros [Hs|(sup & S & D & Hsup & Hc)] (Ht & Ho & Hk & [pool Hb]).
  - split_and!.
    + intros C cls' Hc.
      destruct (same_hierarchy_lookup _ _ _ _ Hs Hc) as (cls & ? & _ & ->).
      by eapply Ht.
    + intros C cls' P Hc Hsup.
      destruct (same_hierarchy_lookup _ _ _ _ Hs Hc) as (cls & ? & E & _).
      rewrite E in Hsup. by eapply Ho.
    + intros C cls' k Hc Hin.
      destruct (same_hierarchy_lookup _ _ _ _ Hs Hc) as (cls & ? & _ & ->).
      by eapply Hk.
    + destruct (same_hierarchy_is_Some _ _ SyntheticEventClass Hs)
        as [cls' Hc]; [eauto|].
      destruct (same_hierarchy_lookup _ _ _ _ Hs Hc) as (cls & H0 & E1 & E2).
      rewrite Hb in H0. injection H0 as <-. simpl in *.
      exists (eventPool cls'). rewrite Hc. destruct cls'; simpl in *.
      by subst.
  - assert (forall C cls', classes w' !! C = Some cls' ->
              classes w !! C = Some cls' \/
              (C = length (classes w) /\
               cls' = mkClass (Some S)
                        (Object_assign (Object_assign [] (Interface sup)) D)
                        [])) as Hcase.
    { intros C cls' H. rewrite Hc in H.
      destruct (decide (C < length (classes w))) as [Hlt|Hge].
      - left. by rewrite lookup_app_l in H.
      - right. rewrite lookup_app_r in H by lia.
        destruct (C - length (classes w)) as [|m] eqn:Hm; simpl in H;
          [|done].
        split; [lia|]. by injection H. }
    split_and!.
    + intros C cls' H. destruct (Hcase _ _ H) as [H0|[_ ->]].
      * by eapply Ht.
      * simpl. apply Object_assign_NoDup, Object_assign_NoDup. constructor.
    + intros C cls' P H HP. destruct (Hcase _ _ H) as [H0|[-> ->]].
      * by eapply Ho.
      * simpl in HP. injection HP as <-. by eapply lookup_lt_Some.
    + intros C cls' k H Hin. destruct (Hcase _ _ H) as [H0|[_ ->]].
      * by eapply Hk.
      * simpl. apply extend_table_keys. left. by eapply Hk.
    + exists pool. rewrite Hc, lookup_app_l; [done|].
      by eapply lookup_lt_Some.
Qed.

Lemma hierarchy_initial t :
  tables_wf (initial_world t) /\ supers_older (initial_world t) /\
  keeps_base_fields (initial_world t) /\
  (exists pool, classes (initial_world t) !! SyntheticEventClass
                = Some (mkClass None EventInterface pool)).
Proof.
  split_and!.
  - intros [|C] cls H; simplify_eq/=.
    match goal with |- ?G => apply (bool_decide_unpack G) end.
    by vm_compute.
  - intros [|C] cls P H HP; simplify_eq/=.
  - intros [|C] cls k H Hin; simplify_eq/=. done.
  - by exists [].
Qed.

Lemma hierarchy_run_ops ops w :
  tables_wf w /\ supers_older w /\ keeps_base_fields w /\
  (exists pool, classes w !! SyntheticEventClass
                = Some (mkClass None EventInterface pool)) ->
  let w' := run_ops ops w in
  tables_wf w' /\ supers_older w' /\ keeps_base_fields w' /\
  (exists pool, classes w' !! SyntheticEventClass
                = Some (mkClass None EventInterface pool)).
Proof.
  revert w. induction ops as [|o ops IH]; intros w Hinv; [done|].
  simpl. apply IH. eapply hierarchy_step_invariant; [|exact Hinv].
  apply step_hierarchy.
Qed.

(** X15. In every world reached from the loaded module by any sequence of
    operations: no table names a field twice; the parent of every class is a
    class created before it; every table declares all the fields of the base
    [EventInterface]; and class 0 is still [SyntheticEvent] itself, without
    parent and with the table [EventInterface]. *)
Theorem hierarchy_invariant ops t :
  let w := run_ops ops (initial_world t) in
  tables_wf w /\ supers_older w /\ keeps_base_fields w /\
  (exists pool, classes w !! SyntheticEventClass
                = Some (mkClass None EventInterface pool)).
Proof. apply hierarchy_run_ops, hierarchy_initial. Qed.


(** ** What the mutators and [release] leave alone *)





End EventsMore.
